(** * Fava options: [fava/core/fava_options.py]

    A shallow embedding of [parse_options] and of the tables it reads
    ([DEFAULTS], [BOOL_OPTS], [INT_OPTS], [LIST_OPTS], [STR_OPTS],
    [MULTI_OPTS]), followed by the properties of the options resolver.

    The function is embedded twice.  On values: Python dictionaries are
    [gmap string _], Python lists are [list _], exceptions are an explicit
    [Raise] result, and the body of the [try] block runs in a state and
    exception monad over the [options] dictionary.  On objects (module
    [Store]): dictionaries and lists live in a store and are changed in
    place, which is what the copy of [DEFAULTS] is about.  The two runs
    are proved to agree.

    The builtins [int] and [re.compile] are parameters.  Strings are
    sequences of characters of the ASCII range, on which [lower], [strip]
    and [split] are given in full; they leave the other bytes alone. *)

From Stdlib Require Import ZArith Ascii String.
From stdpp Require Import gmap strings list fin_maps.

Local Open Scope string_scope.
Local Open Scope list_scope.
Local Open Scope Z_scope.

(** ** String builtins used by the source *)

Module PyStr.

(** [c.lower()] for one character: only [A]..[Z] move. *)
Definition lower_ascii (c : ascii) : ascii :=
  let n := nat_of_ascii c in
  if (Nat.leb 65 n && Nat.leb n 90)%bool then ascii_of_nat (n + 32) else c.

(** [str.lower] *)
Fixpoint lower (s : string) : string :=
  match s with
  | EmptyString => EmptyString
  | String c s' => String (lower_ascii c) (lower s')
  end.

(** The characters [str.strip()] removes: tab, line feed, vertical tab,
    form feed, carriage return, the four separators 0x1c..0x1f, space. *)
Definition is_space (c : ascii) : bool :=
  let n := nat_of_ascii c in
  ((Nat.leb 9 n && Nat.leb n 13) || (Nat.leb 28 n && Nat.leb n 32))%bool.

Fixpoint lstrip (s : string) : string :=
  match s with
  | EmptyString => EmptyString
  | String c s' => if is_space c then lstrip s' else s
  end.

Fixpoint rstrip (s : string) : string :=
  match s with
  | EmptyString => EmptyString
  | String c s' =>
      match rstrip s' with
      | EmptyString => if is_space c then EmptyString else String c EmptyString
      | r => String c r
      end
  end.

(** [str.strip()] *)
Definition strip (s : string) : string := rstrip (lstrip s).

(** [s.split(" ")]: every single space separates, empty fields are
    kept, and the empty string gives one empty field. *)
Fixpoint split_space (s : string) : list string :=
  match s with
  | EmptyString => [EmptyString]
  | String c s' =>
      if Ascii.eqb c " "%char then EmptyString :: split_space s'
      else match split_space s' with
           | [] => [String c EmptyString]
           | w :: ws => String c w :: ws
           end
  end.



End PyStr.

(** ** Data model *)

(** A [datetime.date]. *)
Record Date := { year : Z; month : Z; day : Z }.

(** The [meta] dictionary of an entry; the loader always fills in
    [filename] and [lineno], the only two keys the source reads. *)
Record Meta := { filename : string; lineno : Z }.

(** What [.value] of one element of [entry.values] can be: a [str], or one
    of the other kinds the ledger loader produces. *)
Inductive cvalue :=
| CStr (s : string)
| CBool (b : bool)
| CNumber (n : Z)
| CDate (d : Date).

(** A beancount [Custom] entry. *)
Record Custom := {
  meta : Meta;
  date : Date;
  type : string;
  values : list cvalue
}.

(** [OptionError = namedtuple("OptionError", "source message entry")] *)
Record OptionError := {
  source : Meta;
  message : string;
  entry : Custom
}.

(** A compiled pattern object, identified by the text it was compiled
    from ([re.compile(p).pattern == p]). *)
Record Pattern := { pattern : string }.

(** [InsertEntryOption = namedtuple("InsertEntryOption", "date re filename lineno")] *)
Record InsertEntryOption := {
  ie_date : Date;
  ie_re : Pattern;
  ie_filename : string;
  ie_lineno : Z
}.

(** The values an option can hold. *)
#[warnings="-register-all"]
Inductive pyval :=
| VNone
| VBool (b : bool)
| VInt (n : Z)
| VStr (s : string)
| VInsertEntry (o : InsertEntryOption)
| VList (l : list pyval).

Definition strs (l : list string) : pyval := VList (VStr <$> l).

(** ** The tables of the module *)

Definition conversion_currencies : list string :=
  [ "AED"; "AFN"; "ALL"; "AMD"; "ANG"; "AOA"; "ARS"; "AUD"; "AWG"; "AZN";
    "BAM"; "BBD"; "BDT"; "BGN"; "BHD"; "BIF"; "BMD"; "BND"; "BOB"; "BOV";
    "BRL"; "BSD"; "BTN"; "BWP"; "BYN"; "BZD"; "CAD"; "CDF"; "CHE"; "CHF";
    "CHW"; "CLF"; "CLP"; "CNY"; "COP"; "COU"; "CRC"; "CUC"; "CUP"; "CVE";
    "CZK"; "DJF"; "DKK"; "DOP"; "DZD"; "EGP"; "ERN"; "ETB"; "EUR"; "FJD";
    "FKP"; "GBP"; "GEL"; "GHS"; "GIP"; "GMD"; "GNF"; "GTQ"; "GYD"; "HKD";
    "HNL"; "HRK"; "HTG"; "HUF"; "IDR"; "ILS"; "INR"; "IQD"; "IRR"; "ISK";
    "JMD"; "JOD"; "JPY"; "KES"; "KGS"; "KHR"; "KMF"; "KPW"; "KRW"; "KWD";
    "KYD"; "KZT"; "LAK"; "LBP"; "LKR"; "LRD"; "LSL"; "LYD"; "MAD"; "MDL";
    "MGA"; "MKD"; "MMK"; "MNT"; "MOP"; "MRU"; "MUR"; "MVR"; "MWK"; "MXN";
    "MXV"; "MYR"; "MZN"; "NAD"; "NGN"; "NIO"; "NOK"; "NPR"; "NZD"; "OMR";
    "PAB"; "PEN"; "PGK"; "PHP"; "PKR"; "PLN"; "PYG"; "QAR"; "RON"; "RSD";
    "RUB"; "RWF"; "SAR"; "SBD"; "SCR"; "SDG"; "SEK"; "SGD"; "SHP"; "SLL";
    "SOS"; "SRD"; "SSP"; "STN"; "SVC"; "SYP"; "SZL"; "THB"; "TJS"; "TMT";
    "TND"; "TOP"; "TRY"; "TTD"; "TWD"; "TZS"; "UAH"; "UGX"; "USD"; "USN";
    "UYI"; "UYU"; "UYW"; "UZS"; "VES"; "VND"; "VUV"; "WST"; "XAF"; "XAG";
    "XAU"; "XBA"; "XBB"; "XBC"; "XBD"; "XCD"; "XDR"; "XOF"; "XPD"; "XPF";
    "XPT"; "XSU"; "XTS"; "XUA"; "XXX"; "YER"; "ZAR"; "ZMW"; "ZWL" ].

(** The items of the [DEFAULTS] literal, in the order of the source. *)
Definition DEFAULTS_items : list (string * pyval) :=
  [ ("account-journal-include-children", VBool true);
    ("currency-column", VInt 61);
    ("collapse-pattern", VList []);
    ("conversion-currencies", strs conversion_currencies);
    ("auto-reload", VBool false);
    ("default-file", VNone);
    ("fiscal-year-end", VStr "12-31");
    ("import-config", VNone);
    ("import-dirs", VList []);
    ("insert-entry", VList []);
    ("interval", VStr "month");
    ("journal-show",
       strs ["transaction"; "balance"; "note"; "document"; "custom";
             "budget"; "query"]);
    ("journal-show-document", strs ["discovered"; "statement"]);
    ("journal-show-transaction", strs ["cleared"; "pending"]);
    ("language", VNone);
    ("locale", VNone);
    ("show-accounts-with-zero-balance", VBool true);
    ("show-accounts-with-zero-transactions", VBool true);
    ("show-closed-accounts", VBool false);
    ("sidebar-show-queries", VInt 5);
    ("unrealized", VStr "Unrealized");
    ("upcoming-events", VInt 7);
    ("uptodate-indicator-grey-lookback-days", VInt 60);
    ("use-external-editor", VBool false) ].

Definition DEFAULTS : gmap string pyval := list_to_map DEFAULTS_items.

Definition BOOL_OPTS : list string :=
  [ "account-journal-include-children";
    "auto-reload";
    "show-accounts-with-zero-balance";
    "show-accounts-with-zero-transactions";
    "show-closed-accounts";
    "use-external-editor" ].

Definition INT_OPTS : list string :=
  [ "currency-column";
    "sidebar-show-queries";
    "upcoming-events";
    "uptodate-indicator-grey-lookback-days" ].

Definition LIST_OPTS : list string :=
  [ "conversion-currencies";
    "import-dirs";
    "journal-show";
    "journal-show-document";
    "journal-show-transaction" ].

Definition STR_OPTS : list string :=
  [ "collapse-pattern";
    "fiscal-year-end";
    "import-config";
    "interval";
    "language";
    "locale";
    "unrealized" ].

(** Options that can be specified multiple times. *)
Definition MULTI_OPTS : list string := [ "collapse-pattern" ].

(** [x in l] for a list of strings. *)
Definition mem (x : string) (l : list string) : bool := bool_decide (x ∈ l).

(** ** Exceptions and the state-and-exception monad *)

Inductive exn :=
| IndexError
| TypeError
| AssertionError
| ValueError
| re_error
| KeyError
| AttributeError
| UnboundLocalError.

Inductive result (A : Type) :=
| Ok (a : A)
| Raise (e : exn).
Arguments Ok {A} a.
Arguments Raise {A} e.

(** The tuple of [except (IndexError, TypeError, AssertionError)]. *)
Definition caught (e : exn) : bool :=
  match e with
  | IndexError | TypeError | AssertionError => true
  | _ => false
  end.

(** A statement of the loop body runs on the [options] dictionary and
    either finishes or raises; what it wrote before raising stays
    written. *)
Definition M (A : Type) : Type :=
  gmap string pyval -> result A * gmap string pyval.

#[local] Instance M_ret : MRet M := fun A a options => (Ok a, options).

#[local] Instance M_bind : MBind M := fun A B f m options =>
  match m options with
  | (Ok a, options') => f a options'
  | (Raise e, options') => (Raise e, options')
  end.

Definition raise {A} (e : exn) : M A := fun options => (Raise e, options).

(** [assert b] *)
Definition assert (b : bool) : M unit :=
  if b then mret tt else raise AssertionError.

(** [l[i]] for a literal index [i >= 0] *)
Definition getitem {A} (l : list A) (i : nat) : M A :=
  match l !! i with
  | Some a => mret a
  | None => raise IndexError
  end.

(** [options[key] = v] *)
Definition setitem (key : string) (v : pyval) : M unit :=
  fun options => (Ok tt, <[key := v]> options).

(** [options[key].append(v)] *)
Definition append (key : string) (v : pyval) : M unit :=
  fun options =>
    match options !! key with
    | None => (Raise KeyError, options)
    | Some (VList l) => (Ok tt, <[key := VList (l ++ [v])]> options)
    | Some _ => (Raise AttributeError, options)
    end.

(** [assert key in DEFAULTS.keys()]: only a [str] can be a key of the
    table, so a key that passes is a string. *)
Definition assert_key (k : cvalue) : M string :=
  match k with
  | CStr key => assert (bool_decide (key ∈ dom DEFAULTS));; mret key
  | _ => raise AssertionError
  end.

(** [assert isinstance(value, str)] *)
Definition assert_str (v : cvalue) : M string :=
  match v with
  | CStr s => mret s
  | _ => raise AssertionError
  end.

(** Reading the local [value]: it is bound by the generic branch only.
    The two special keys belong to none of the four type lists (lemma
    [special_keys_untyped]), so the read always follows the assignment of
    the same iteration. *)
Definition local (value : option string) : M string :=
  match value with
  | Some s => mret s
  | None => raise UnboundLocalError
  end.

(** [copy.deepcopy] of a dictionary of values: on values, the copy is the
    value itself; module [Store] below models the objects. *)
Definition deepcopy (d : gmap string pyval) : gmap string pyval := d.

Definition error_message : string := "Failed to parse fava-option entry".

(** [OptionError(entry.meta, "Failed to parse fava-option entry", entry)] *)
Definition option_error (e : Custom) : OptionError :=
  {| source := meta e; message := error_message; entry := e |}.

(** ** [parse_options] *)

Section ParseOptions.

(** The two builtins that can fail on a string.  [int s] is the
    integer [int(s)] returns, or [None] when it raises [ValueError].
    [re_valid s] tells whether [re.compile(s)] returns a pattern; when
    it does not, it raises an exception that is not in the caught
    tuple, named [re_error] here. *)
Variable int : string -> option Z.
Variable re_valid : string -> bool.

(** [re.compile(v)]: anything but a string is a [TypeError]. *)
Definition re_compile (v : cvalue) : M Pattern :=
  match v with
  | CStr s => if re_valid s then mret {| pattern := s |} else raise re_error
  | _ => raise TypeError
  end.

(** [int(value)] *)
Definition int_of (s : string) : M Z :=
  match int s with
  | Some n => mret n
  | None => raise ValueError
  end.

(** Lines 135-147: the two special keys are served at once and bind
    no [value]; every other key binds [value] to the second argument,
    which has to be a string. *)
Definition read_value (entry : Custom) (key : string) : M (option string) :=
  if String.eqb key "default-file" then
    setitem key (VStr (filename (meta entry)));;
    mret None
  else if String.eqb key "insert-entry" then
    v ← getitem (values entry) 1;
    re ← re_compile v;
    append key (VInsertEntry
                  {| ie_date := date entry;
                     ie_re := re;
                     ie_filename := filename (meta entry);
                     ie_lineno := lineno (meta entry) |});;
    mret None
  else
    v ← getitem (values entry) 1;
    s ← assert_str v;
    mret (Some s).

(** Lines 149-157: [processed_value], [None] when the key is in none of
    the four lists. *)
Definition process_value (key : string) (value : option string)
    : M (option pyval) :=
  if mem key STR_OPTS then
    s ← local value; mret (Some (VStr s))
  else if mem key BOOL_OPTS then
    s ← local value;
    mret (Some (VBool (String.eqb (PyStr.lower s) "true")))
  else if mem key INT_OPTS then
    s ← local value; n ← int_of s; mret (Some (VInt n))
  else if mem key LIST_OPTS then
    s ← local value;
    mret (Some (strs (PyStr.split_space (PyStr.strip s))))
  else mret None.

(** What lines 149-157 make of a string for a key: the value of
    [processed_value] when the coercion returns one. *)
Definition coerced (key value : string) : option pyval :=
  match process_value key (Some value) ∅ with
  | (Ok processed_value, _) => processed_value
  | (Raise _, _) => None
  end.

(** Lines 159-163: append for the options that can be given several
    times, overwrite for the others. *)
Definition store_value (key : string) (processed_value : option pyval)
    : M unit :=
  match processed_value with
  | Some pv => if mem key MULTI_OPTS then append key pv else setitem key pv
  | None => mret tt
  end.

(** The body of the [try] block for one entry (lines 132-163). *)
Definition parse_entry (entry : Custom) : M unit :=
  k ← getitem (values entry) 0;
  key ← assert_key k;
  value ← read_value entry key;
  processed_value ← process_value key value;
  store_value key processed_value.

(** The [for] loop, from the point where [options] and [errors] hold
    the given values. *)
Fixpoint parse_loop (custom_entries : list Custom)
    (options : gmap string pyval) (errors : list OptionError)
    : result (gmap string pyval * list OptionError) :=
  match custom_entries with
  | [] => Ok (options, errors)
  | entry :: rest =>
      if String.eqb (type entry) "fava-option" then
        match parse_entry entry options with
        | (Ok _, options') => parse_loop rest options' errors
        | (Raise e, options') =>
            if caught e then
              parse_loop rest options' (errors ++ [option_error entry])
            else Raise e
        end
      else parse_loop rest options errors
  end.

Definition parse_options (custom_entries : list Custom)
    : result (gmap string pyval * list OptionError) :=
  parse_loop custom_entries (deepcopy DEFAULTS) [].

End ParseOptions.

(** ** Sample instances of the two builtins

    Used to run the model on closed inputs.  [Sample.int] reads an
    optional sign and ASCII digits (single underscores between digits
    allowed), surrounded by blanks.  [Sample.re_valid] accepts the
    patterns written with letters, digits, space and [: - _ . ^ $ /]
    only, all of which [re.compile] accepts, and rejects every other
    string, among them ["("] and ["["]. *)

Module Sample.

Definition digit (c : ascii) : option Z :=
  let n := nat_of_ascii c in
  if (Nat.leb 48 n && Nat.leb n 57)%bool then Some (Z.of_nat (n - 48))
  else None.

Fixpoint digits (acc : Z) (after_digit : bool) (s : string) : option Z :=
  match s with
  | EmptyString => if after_digit then Some acc else None
  | String c s' =>
      match digit c with
      | Some d => digits (10 * acc + d) true s'
      | None =>
          if (Ascii.eqb c "_"%char && after_digit)%bool
          then digits acc false s' else None
      end
  end.

Definition is_blank (c : ascii) : bool :=
  let n := nat_of_ascii c in
  ((Nat.leb 9 n && Nat.leb n 13) || Nat.eqb n 32)%bool.

Fixpoint lblank (s : string) : string :=
  match s with
  | EmptyString => EmptyString
  | String c s' => if is_blank c then lblank s' else s
  end.

Fixpoint rblank (s : string) : string :=
  match s with
  | EmptyString => EmptyString
  | String c s' =>
      match rblank s' with
      | EmptyString => if is_blank c then EmptyString else String c EmptyString
      | r => String c r
      end
  end.

Definition int (s : string) : option Z :=
  match rblank (lblank s) with
  | String "-"%char r => Z.opp <$> digits 0 false r
  | String "+"%char r => digits 0 false r
  | r => digits 0 false r
  end.

Definition plain (c : ascii) : bool :=
  let n := nat_of_ascii c in
  ((Nat.leb 48 n && Nat.leb n 57) || (Nat.leb 65 n && Nat.leb n 90)
   || (Nat.leb 97 n && Nat.leb n 122)
   || bool_decide (c ∈ [" "; ":"; "-"; "_"; "."; "^"; "$"; "/"]%char))%bool.

Fixpoint re_valid (s : string) : bool :=
  match s with
  | EmptyString => true
  | String c s' => (plain c && re_valid s')%bool
  end.

Definition parse_options := parse_options int re_valid.

End Sample.

(** ** Running the model *)

Module Run.

(** Closes [lhs = rhs] between closed terms by evaluating both sides. *)
Ltac run :=
  lazymatch goal with
  | |- _ = ?r => vm_cast_no_check (@eq_refl _ r)
  end.

Definition loc (f : string) (n : Z) : Meta := {| filename := f; lineno := n |}.
Definition day1 : Date := {| year := 2016; month := 4; day := 1 |}.

(** [2016-04-01 custom "fava-option" k1 ... kn] at line [n] of [main.bean] *)
Definition opt (n : Z) (vs : list cvalue) : Custom :=
  {| meta := loc "main.bean" n; date := day1; type := "fava-option";
     values := vs |}.

End Run.

(** ** The objects behind the values

    [DEFAULTS] is one dictionary object and each list in it is one list
    object: an assignment [options[key] = v] changes the dictionary that
    [options] refers to, and [options[key].append(v)] changes the list
    that the dictionary holds under [key], for every name that refers to
    the same object.  This module runs [parse_options] on a store of
    such objects. *)

Module Store.

(** Locations of the store. *)
Abbreviation loc := nat.

(** What a dictionary holds under a key: an immutable value ([None], a
    [bool], an [int], a [str]), or a reference to a list object. *)
Inductive hval :=
| Imm (v : pyval)
| Ref (l : loc).

(** The mutable objects.  The lists of this module hold immutable values
    only: strings and [InsertEntryOption] tuples. *)
Inductive obj :=
| OList (items : list pyval)
| ODict (slots : gmap string hval).

Abbreviation heap := (list obj).

(** A statement finishes, raises, or goes [Wrong]: it follows a reference
    that the store does not have, or finds an object of the other kind
    where the program always has a dictionary; no run from a store that
    satisfies [dict_ok] does. *)
Inductive outcome (A : Type) :=
| Done (a : A)
| Throw (e : exn)
| Wrong.
Arguments Done {A} a.
Arguments Throw {A} e.
Arguments Wrong {A}.

Definition St (A : Type) : Type := heap -> outcome A * heap.

#[local] Instance St_ret : MRet St := fun A a h => (Done a, h).

#[local] Instance St_bind : MBind St := fun A B f m h =>
  match m h with
  | (Done a, h') => f a h'
  | (Throw e, h') => (Throw e, h')
  | (Wrong, h') => (Wrong, h')
  end.

Definition throw {A} (e : exn) : St A := fun h => (Throw e, h).
Definition wrong {A} : St A := fun h => (Wrong, h).

Definition assert (b : bool) : St unit :=
  if b then mret tt else throw AssertionError.

Definition getitem {A} (l : list A) (i : nat) : St A :=
  match l !! i with
  | Some a => mret a
  | None => throw IndexError
  end.

(** A new object, at a location nothing refers to yet. *)
Definition alloc (o : obj) : St loc :=
  fun h => (Done (List.length h), (h ++ [o])%list).

Definition get_dict (d : loc) : St (gmap string hval) :=
  fun h =>
    match h !! d with
    | Some (ODict m) => (Done m, h)
    | _ => (Wrong, h)
    end.

Definition get_list (l : loc) : St (list pyval) :=
  fun h =>
    match h !! l with
    | Some (OList xs) => (Done xs, h)
    | _ => (Wrong, h)
    end.

(** [d[key] = v], on the dictionary object at [d] *)
Definition setitem (d : loc) (key : string) (v : hval) : St unit :=
  fun h =>
    match h !! d with
    | Some (ODict m) => (Done tt, <[d := ODict (<[key := v]> m)]> h)
    | _ => (Wrong, h)
    end.

(** [d[key].append(x)]: the list object under [key] is changed in place,
    the dictionary is not. *)
Definition append (d : loc) (key : string) (x : pyval) : St unit :=
  fun h =>
    match h !! d with
    | Some (ODict m) =>
        match m !! key with
        | None => (Throw KeyError, h)
        | Some (Imm _) => (Throw AttributeError, h)
        | Some (Ref l) =>
            match h !! l with
            | Some (OList xs) => (Done tt, <[l := OList (xs ++ [x])]> h)
            | Some (ODict _) => (Throw AttributeError, h)
            | None => (Wrong, h)
            end
        end
    | _ => (Wrong, h)
    end.

(** [copy.deepcopy] of the values of a dictionary: immutable values are
    kept, each list object is copied into a new one, once ([memo] maps
    the lists already copied to their copies, as the [memo] dictionary of
    [deepcopy] does). *)
Fixpoint copy_slots (slots : list (string * hval)) (memo : gmap loc loc)
    : St (list (string * hval)) :=
  match slots with
  | [] => mret []
  | (key, Imm v) :: rest =>
      copied ← copy_slots rest memo;
      mret ((key, Imm v) :: copied)
  | (key, Ref l) :: rest =>
      match memo !! l with
      | Some l' =>
          copied ← copy_slots rest memo;
          mret ((key, Ref l') :: copied)
      | None =>
          xs ← get_list l;
          l' ← alloc (OList xs);
          copied ← copy_slots rest (<[l := l']> memo);
          mret ((key, Ref l') :: copied)
      end
  end.

(** [copy.deepcopy(d)] for the dictionary object at [d]: a new
    dictionary that holds the copies.  The order in which the items are
    visited, and whether the new dictionary is made before or after the
    new lists, only decide which new location each object gets. *)
Definition deepcopy (d : loc) : St loc :=
  m ← get_dict d;
  copied ← copy_slots (map_to_list m) ∅;
  alloc (ODict (list_to_map copied)).

Definition assert_str (v : cvalue) : St string :=
  match v with
  | CStr s => mret s
  | _ => throw AssertionError
  end.

Definition local (value : option string) : St string :=
  match value with
  | Some s => mret s
  | None => throw UnboundLocalError
  end.

Section ParseOptions.

Variable int : string -> option Z.
Variable re_valid : string -> bool.

(** The module-level name [DEFAULTS] refers to the dictionary at this
    location. *)
Variable DEFAULTS : loc.

Definition re_compile (v : cvalue) : St Pattern :=
  match v with
  | CStr s => if re_valid s then mret {| pattern := s |} else throw re_error
  | _ => throw TypeError
  end.

Definition int_of (s : string) : St Z :=
  match int s with
  | Some n => mret n
  | None => throw ValueError
  end.

(** [assert key in DEFAULTS.keys()] reads the dictionary object. *)
Definition assert_key (k : cvalue) : St string :=
  match k with
  | CStr key =>
      defaults ← get_dict DEFAULTS;
      assert (bool_decide (key ∈ dom defaults));;
      mret key
  | _ => throw AssertionError
  end.

Definition read_value (options : loc) (entry : Custom) (key : string)
    : St (option string) :=
  if String.eqb key "default-file" then
    setitem options key (Imm (VStr (filename (meta entry))));;
    mret None
  else if String.eqb key "insert-entry" then
    v ← getitem (values entry) 1;
    re ← re_compile v;
    append options key
      (VInsertEntry
         {| ie_date := date entry;
            ie_re := re;
            ie_filename := filename (meta entry);
            ie_lineno := lineno (meta entry) |});;
    mret None
  else
    v ← getitem (values entry) 1;
    s ← assert_str v;
    mret (Some s).

(** [split] makes a new list object. *)
Definition process_value (key : string) (value : option string)
    : St (option hval) :=
  if mem key STR_OPTS then
    s ← local value; mret (Some (Imm (VStr s)))
  else if mem key BOOL_OPTS then
    s ← local value;
    mret (Some (Imm (VBool (String.eqb (PyStr.lower s) "true"))))
  else if mem key INT_OPTS then
    s ← local value; n ← int_of s; mret (Some (Imm (VInt n)))
  else if mem key LIST_OPTS then
    s ← local value;
    l ← alloc (OList (VStr <$> PyStr.split_space (PyStr.strip s)));
    mret (Some (Ref l))
  else mret None.

(** Only strings are appended: the keys of [MULTI_OPTS] are keys of
    [STR_OPTS]. *)
Definition store_value (options : loc) (key : string)
    (processed_value : option hval) : St unit :=
  match processed_value with
  | Some pv =>
      if mem key MULTI_OPTS then
        match pv with
        | Imm x => append options key x
        | Ref _ => wrong
        end
      else setitem options key pv
  | None => mret tt
  end.

Definition parse_entry (options : loc) (entry : Custom) : St unit :=
  k ← getitem (values entry) 0;
  key ← assert_key k;
  value ← read_value options entry key;
  processed_value ← process_value key value;
  store_value options key processed_value.

(** [errors] is a list that only this call holds; it is kept as a
    value. *)
Fixpoint parse_loop (custom_entries : list Custom) (options : loc)
    (errors : list OptionError) : St (loc * list OptionError) :=
  fun h =>
    match custom_entries with
    | [] => (Done (options, errors), h)
    | entry :: rest =>
        if String.eqb (type entry) "fava-option" then
          match parse_entry options entry h with
          | (Done _, h') => parse_loop rest options errors h'
          | (Throw e, h') =>
              if caught e then
                parse_loop rest options (errors ++ [option_error entry]) h'
              else (Throw e, h')
          | (Wrong, h') => (Wrong, h')
          end
        else parse_loop rest options errors h
    end.

Definition parse_options (custom_entries : list Custom)
    : St (loc * list OptionError) :=
  options ← deepcopy DEFAULTS;
  parse_loop custom_entries options [].

End ParseOptions.

(** *** The store after the module is loaded *)

(** The dictionary literal: each list literal makes a list object, then
    the dictionary is made. *)
Fixpoint alloc_items (items : list (string * pyval)) (h : heap)
    : list (string * hval) * heap :=
  match items with
  | [] => ([], h)
  | (key, VList xs) :: rest =>
      let '(slots, h') := alloc_items rest (h ++ [OList xs]) in
      ((key, Ref (List.length h)) :: slots, h')
  | (key, v) :: rest =>
      let '(slots, h') := alloc_items rest h in
      ((key, Imm v) :: slots, h')
  end.

Definition module_heap : heap :=
  let '(slots, h) := alloc_items DEFAULTS_items [] in
  (h ++ [ODict (list_to_map slots)])%list.

Definition DEFAULTS_loc : loc := 7%nat.

(** *** Values out of the store *)

Definition read_val (h : heap) (v : hval) : option pyval :=
  match v with
  | Imm x => Some x
  | Ref l =>
      match h !! l with
      | Some (OList xs) => Some (VList xs)
      | _ => None
      end
  end.

(** The dictionary at [d] as a dictionary of values. *)
Definition read_dict (h : heap) (d : loc) : option (gmap string pyval) :=
  match h !! d with
  | Some (ODict m) => Some (omap (read_val h) m)
  | _ => None
  end.

(** [d] is a dictionary whose references are list objects. *)
Definition dict_ok (h : heap) (d : loc) : bool :=
  match h !! d with
  | Some (ODict m) =>
      forallb (fun kv => bool_decide (is_Some (read_val h kv.2)))
        (map_to_list m)
  | _ => false
  end.

(** The lists a sequence of items refers to. *)
Definition refs (slots : list (string * hval)) : list loc :=
  omap (fun kv => if kv.2 is Ref l then Some l else None) slots.

(** No two keys of the dictionary at [d] hold the same list object, and
    no list is held as an immutable value. *)
Definition unshared (h : heap) (d : loc) : bool :=
  match h !! d with
  | Some (ODict m) =>
      (forallb (fun kv => if kv.2 is Imm (VList _) then false else true)
         (map_to_list m)
       && bool_decide (NoDup (refs (map_to_list m))))%bool
  | _ => false
  end.

End Store.

#[local] Existing Instance Store.St_ret.
#[local] Existing Instance Store.St_bind.

(** *** What a run keeps true of the store *)

(** [l] is a list object made after the store [h0]. *)
Definition fresh_list (h0 h : Store.heap) (l : Store.loc) : Prop :=
  (length h0 <= l)%nat /\ exists xs, h !! l = Some (Store.OList xs).

(** The store [h] extends [h0], and [options] is a dictionary made after
    [h0] whose references are lists made after [h0]. *)
Definition store_inv (h0 : Store.heap) (options : Store.loc)
    (h : Store.heap) : Prop :=
  h0 `prefix_of` h /\ (length h0 <= options)%nat
  /\ exists m, h !! options = Some (Store.ODict m)
       /\ forall key l, m !! key = Some (Store.Ref l) -> fresh_list h0 h l.

(** What [store_value] needs of [processed_value]: a reference is a list
    made after [h0], and is not appended to a list. *)
Definition storable (h0 : Store.heap) (key : string)
    (pv : option Store.hval) (h : Store.heap) : Prop :=
  match pv with
  | Some (Store.Ref l) => fresh_list h0 h l /\ mem key MULTI_OPTS = false
  | _ => True
  end.

(** *** The store and the values side by side *)

Definition slots_ok (m : gmap string Store.hval) : Prop :=
  (forall k1 k2 l,
     m !! k1 = Some (Store.Ref l) -> m !! k2 = Some (Store.Ref l) -> k1 = k2)
  /\ (forall key xs, m !! key <> Some (Store.Imm (VList xs))).

(** The dictionary [options] of the store [h] reads as the options [o]. *)
Definition sim (h0 : Store.heap) (options : Store.loc)
    (h : Store.heap) (o : gmap string pyval) : Prop :=
  store_inv h0 options h
  /\ exists m, h !! options = Some (Store.ODict m)
       /\ omap (Store.read_val h) m = o /\ slots_ok m.

(** [l] is the list [xs], made after [h0], and [options] does not hold
    it yet. *)
Definition new_list (h0 : Store.heap) (options l : Store.loc)
    (xs : list pyval) (h : Store.heap) : Prop :=
  h !! l = Some (Store.OList xs) /\ (length h0 <= l)%nat
  /\ forall m key, h !! options = Some (Store.ODict m) ->
        m !! key <> Some (Store.Ref l).

(** A processed value of the store and the value it stands for. *)
Definition pv_rel (h0 : Store.heap) (options : Store.loc) (key : string)
    (pv : option Store.hval) (pv' : option pyval) (h : Store.heap) : Prop :=
  match pv, pv' with
  | None, None => True
  | Some (Store.Imm v), Some v' => v = v' /\ forall xs, v <> VList xs
  | Some (Store.Ref l), Some (VList xs) =>
      new_list h0 options l xs h /\ mem key MULTI_OPTS = false
  | _, _ => False
  end.

(** The statement [m] on the store and the statement [n] on the values
    end the same way from states related by [S], and leave states
    related by [S]. *)
Definition rtriple {A B} (S : Store.heap -> gmap string pyval -> Prop)
    (P : Store.heap -> Prop) (m : Store.St A) (n : M B)
    (Q : A -> B -> Store.heap -> Prop) : Prop :=
  forall h o, S h o -> P h ->
    match m h, n o with
    | (Store.Done a, h'), (Ok b, o') => S h' o' /\ Q a b h'
    | (Store.Throw x, h'), (Raise y, o') => x = y /\ S h' o'
    | _, _ => False
    end.

(** From a store that satisfies [I] and [P], the statement [m] does not
    go wrong, keeps [I], and establishes [Q] when it finishes. *)
Definition triple {A} (I P : Store.heap -> Prop) (m : Store.St A)
    (Q : A -> Store.heap -> Prop) : Prop :=
  forall h, I h -> P h ->
    match m h with
    | (Store.Done a, h') => I h' /\ Q a h'
    | (Store.Throw _, h') => I h'
    | (Store.Wrong, _) => False
    end.

(** ** Reading a directive by itself *)

(** The keys served by the generic branch: those of the four type lists. *)
Definition typed (key : string) : bool :=
  (mem key STR_OPTS || mem key BOOL_OPTS || mem key INT_OPTS
   || mem key LIST_OPTS)%bool.

(** [DEFAULTS.keys()], in the order of the literal. *)
Definition DEFAULTS_key_list : list string :=
  Eval vm_compute in DEFAULTS_items.*1.

Section Directives.

Variable int : string -> option Z.
Variable re_valid : string -> bool.

(** The directives on which [int] or [re.compile] fails: an integer
    option with a string [int] rejects, an [insert-entry] with a string
    [re.compile] rejects. *)
Definition fatal (e : Custom) : bool :=
  (String.eqb (type e) "fava-option" &&
   match values e with
   | CStr key :: CStr v :: _ =>
       (mem key INT_OPTS && negb (bool_decide (is_Some (int v))))
       || (String.eqb key "insert-entry" && negb (re_valid v))
   | _ => false
   end)%bool.

(** The value a directive brings for [key], when it names [key] and
    carries a string that the coercion of [key] accepts. *)
Definition directive_value (key : string) (e : Custom) : option pyval :=
  if String.eqb (type e) "fava-option" then
    match values e with
    | CStr k :: CStr v :: _ =>
        if String.eqb k key then coerced int key v else None
    | _ => None
    end
  else None.

Definition accepted_values (key : string) (es : list Custom) : list pyval :=
  omap (directive_value key) es.

(** The record an [insert-entry] directive appends, when [re.compile]
    accepts its string. *)
Definition insert_entry_value (e : Custom) : option pyval :=
  if String.eqb (type e) "fava-option" then
    match values e with
    | CStr key :: CStr s :: _ =>
        if (String.eqb key "insert-entry" && re_valid s)%bool then
          Some (VInsertEntry
                  {| ie_date := date e;
                     ie_re := {| pattern := s |};
                     ie_filename := filename (meta e);
                     ie_lineno := lineno (meta e) |})
        else None
    | _ => None
    end
  else None.

End Directives.

(** The directives that end in the [except] clause: no value at all, a
    first value that is not a key of [DEFAULTS], or, for every key but
    [default-file], a second value that is missing or not a string. *)
Definition rejected (e : Custom) : bool :=
  (String.eqb (type e) "fava-option" &&
   match values e with
   | [] => true
   | CStr key :: rest =>
       if bool_decide (key ∈ dom DEFAULTS) then
         if String.eqb key "default-file" then false
         else match rest with
              | CStr _ :: _ => false
              | _ => true
              end
       else true
   | _ :: _ => true
   end)%bool.

(** In how many of the classes of keys [key] is: the four type lists and
    the two keys that are served apart. *)
Definition class_count (key : string) : nat :=
  length (List.filter (mem key)
            [STR_OPTS; BOOL_OPTS; INT_OPTS; LIST_OPTS;
             ["default-file"; "insert-entry"]]).

(** Two entries that agree on what [parse_options] reads of an entry. *)
Definition same_directive (e e' : Custom) : Prop :=
  type e = type e' /\ meta e = meta e' /\ date e = date e'
  /\ take 2 (values e) = take 2 (values e').

(** ** The kind of value each option holds *)

Definition is_str_or_none (v : pyval) : bool :=
  match v with
  | VNone | VStr _ => true
  | _ => false
  end.

Definition is_strs (v : pyval) : bool :=
  match v with
  | VList l => forallb (fun x => if x is VStr _ then true else false) l
  | _ => false
  end.

Definition is_insert_entries (v : pyval) : bool :=
  match v with
  | VList l => forallb (fun x => if x is VInsertEntry _ then true else false) l
  | _ => false
  end.

(** [fits key v]: [v] is a value of the kind the table gives to [key]. *)
Definition fits (key : string) (v : pyval) : bool :=
  if String.eqb key "default-file" then is_str_or_none v
  else if String.eqb key "insert-entry" then is_insert_entries v
  else if mem key MULTI_OPTS then is_strs v
  else if mem key STR_OPTS then is_str_or_none v
  else if mem key BOOL_OPTS then (if v is VBool _ then true else false)
  else if mem key INT_OPTS then (if v is VInt _ then true else false)
  else if mem key LIST_OPTS then is_strs v
  else false.

Definition well_typed (o : gmap string pyval) : Prop :=
  dom o = dom DEFAULTS /\ map_Forall (fun key v => fits key v = true) o.

(** ** Tactics *)

(** Case analysis on [H : key ∈ l] for a list [l] given in full. *)
Ltac each_key H :=
  repeat (apply elem_of_cons in H as [-> | H]);
  [ .. | by apply elem_of_nil in H ].

(** Unfolds the monad and its primitives, not the maps. *)
Ltac mrun :=
  cbv beta iota delta
    [mbind M_bind mret M_ret assert_key assert_str assert local int_of
     re_compile setitem raise append getitem].

(** * Properties *)

(** ** The tables *)

Lemma mem_true key l : mem key l = true <-> key ∈ l.
Proof. unfold mem. by rewrite bool_decide_eq_true. Qed.

Lemma mem_false key l : mem key l = false <-> key ∉ l.
Proof. unfold mem. by rewrite bool_decide_eq_false. Qed.

Lemma special_keys_untyped key :
  key = "default-file" \/ key = "insert-entry" -> typed key = false.
Proof. by intros [-> | ->]. Qed.

Lemma DEFAULTS_keys key :
  key ∈ dom DEFAULTS <-> key ∈ DEFAULTS_key_list.
Proof.
  unfold DEFAULTS. rewrite dom_list_to_map_L, elem_of_list_to_set.
  by change (DEFAULTS_items.*1) with DEFAULTS_key_list.
Qed.

(** Every key of [DEFAULTS] is one of the two special keys or belongs to
    a type list, and no key is both. *)
Lemma DEFAULTS_keys_classified key :
  key ∈ dom DEFAULTS <->
  (key = "default-file" \/ key = "insert-entry") /\ typed key = false
  \/ typed key = true.
Proof.
  rewrite DEFAULTS_keys. split.
  - intros H. unfold DEFAULTS_key_list in H. each_key H; auto.
  - unfold typed. rewrite !orb_true_iff, !mem_true.
    unfold DEFAULTS_key_list.
    intros [[[-> | ->] _] | [[[H | H] | H] | H]]; try each_key H;
      apply (bool_decide_unpack _); by vm_compute.
Qed.

Lemma typed_keys_in_DEFAULTS key :
  typed key = true ->
  key ∈ dom DEFAULTS /\ key <> "default-file" /\ key <> "insert-entry".
Proof.
  intros H. split; [ apply DEFAULTS_keys_classified; by right |].
  split; intros ->; discriminate H.
Qed.

Lemma type_lists_disjoint key :
  (key ∈ BOOL_OPTS -> mem key STR_OPTS = false) /\
  (key ∈ INT_OPTS -> mem key STR_OPTS = false /\ mem key BOOL_OPTS = false) /\
  (key ∈ LIST_OPTS ->
     mem key STR_OPTS = false /\ mem key BOOL_OPTS = false
     /\ mem key INT_OPTS = false).
Proof. split; [| split ]; intros H; each_key H; repeat split; reflexivity. Qed.

Lemma MULTI_OPTS_only key :
  mem key MULTI_OPTS = true <-> key = "collapse-pattern".
Proof.
  rewrite mem_true. unfold MULTI_OPTS.
  rewrite elem_of_cons, elem_of_nil. tauto.
Qed.

(** ** The monad *)

Lemma bind_run {A B} (m : M A) (f : A -> M B) o :
  (m ≫= f) o =
    match m o with
    | (Ok a, o') => f a o'
    | (Raise x, o') => (Raise x, o')
    end.
Proof. reflexivity. Qed.

Lemma bind_inv {A B} (m : M A) (f : A -> M B) o r o' :
  (m ≫= f) o = (r, o') ->
  (exists x, m o = (Raise x, o') /\ r = Raise x) \/
  (exists a o1, m o = (Ok a, o1) /\ f a o1 = (r, o')).
Proof.
  rewrite bind_run. destruct (m o) as [[a | x] o1]; intros; simplify_eq; eauto.
Qed.

Lemma getitem_inv {A} (l : list A) i o r o' :
  getitem l i o = (r, o') ->
  o' = o /\ match r with Ok a => l !! i = Some a | Raise _ => True end.
Proof. mrun. case_match; intros; by simplify_eq. Qed.

Lemma assert_key_inv k o r o' :
  assert_key k o = (r, o') ->
  o' = o /\
  match r with
  | Ok key => k = CStr key /\ key ∈ dom DEFAULTS
  | Raise _ => True
  end.
Proof.
  destruct k as [key | | |]; cbn [assert_key];
    [| intros [= <- <-]; by split .. ].
  rewrite bind_run. unfold assert.
  destruct (bool_decide_reflect (key ∈ dom DEFAULTS)) as [Hin | _];
    intros [= <- <-]; by repeat split.
Qed.

Section Entry.

Variable int : string -> option Z.
Variable re_valid : string -> bool.

Lemma process_value_pure key value o r o' :
  process_value int key value o = (r, o') -> o' = o.
Proof.
  unfold process_value. mrun.
  repeat case_match; intros; by simplify_eq.
Qed.

Lemma process_value_untyped key value :
  typed key = false -> process_value int key value = mret None.
Proof.
  unfold typed, process_value. rewrite !orb_false_iff.
  by intros [[[-> ->] ->] ->].
Qed.

Lemma store_value_cases key pv o r o' :
  store_value key pv o = (r, o') ->
  match r with
  | Raise _ => o' = o
  | Ok _ => o' = o /\ pv = None \/ exists v, o' = <[key := v]> o
  end.
Proof.
  unfold store_value. mrun.
  repeat case_match; intros; simplify_eq; eauto.
Qed.

Lemma read_value_cases e key o r o' :
  read_value re_valid e key o = (r, o') ->
  match r with
  | Raise _ => o' = o
  | Ok None => (key = "default-file" \/ key = "insert-entry")
               /\ exists v, o' = <[key := v]> o
  | Ok (Some _) => key <> "default-file" /\ key <> "insert-entry" /\ o' = o
  end.
Proof.
  unfold read_value.
  destruct (String.eqb_spec key "default-file") as [-> | Hdf].
  { mrun. intros; simplify_eq. split; [by left | by eexists]. }
  destruct (String.eqb_spec key "insert-entry") as [-> | Hie].
  { mrun. repeat case_match; intros; simplify_eq; try done;
      (split; [by right | by eexists]). }
  mrun. repeat case_match; intros; by simplify_eq.
Qed.

Lemma process_value_typed key s o pv o' :
  typed key = true ->
  process_value int key (Some s) o = (Ok pv, o') -> is_Some pv.
Proof.
  unfold typed, process_value. mrun.
  destruct (mem key STR_OPTS), (mem key BOOL_OPTS), (mem key INT_OPTS),
    (mem key LIST_OPTS); try done;
    repeat case_match; intros; by simplify_eq.
Qed.

Lemma parse_entry_cases e o r o' :
  parse_entry int re_valid e o = (r, o') ->
  match r with
  | Raise _ => o' = o
  | Ok _ => exists key v, head (values e) = Some (CStr key)
         /\ key ∈ dom DEFAULTS /\ o' = <[key := v]> o
  end.
Proof.
  unfold parse_entry. intros H.
  apply bind_inv in H as [(x & H & ->) | (k & o1 & Hk & H)];
    [ by apply getitem_inv in H as [-> _] |].
  apply getitem_inv in Hk as [-> Hk].
  assert (Hhd : head (values e) = Some k).
  { destruct (values e); [ done | by injection Hk as -> ]. }
  apply bind_inv in H as [(x & H & ->) | (key & o1 & Hkey & H)];
    [ by apply assert_key_inv in H as [-> _] |].
  apply assert_key_inv in Hkey as [-> [-> Hkey]].
  apply bind_inv in H as [(x & H & ->) | (value & o1 & Hr & H)];
    [ by apply read_value_cases in H |].
  apply read_value_cases in Hr.
  apply bind_inv in H as [(x & H & ->) | (pv & o2 & Hp & H)].
  { destruct value as [s |].
    - destruct Hr as (_ & _ & ->). by apply process_value_pure in H.
    - destruct Hr as [Hsp _].
      rewrite (process_value_untyped key None) in H
        by (by apply special_keys_untyped).
      done. }
  pose proof (process_value_pure _ _ _ _ _ Hp) as ->.
  destruct value as [s |].
  - destruct Hr as (Hdf & Hie & ->).
    apply store_value_cases in H.
    destruct r as [[] | x]; [| done ].
    destruct H as [[-> ->] | [v ->]]; [| by eauto ].
    apply DEFAULTS_keys_classified in Hkey as [[[-> | ->] _] | Hty];
      try done.
    by destruct (process_value_typed _ _ _ _ _ Hty Hp).
  - destruct Hr as [Hsp [v ->]].
    rewrite (process_value_untyped key None) in Hp
      by (by apply special_keys_untyped).
    injection Hp as <-. injection H as <- <-. by eauto.
Qed.

(** What one entry can do to the options: nothing when it raises, one
    key of [DEFAULTS] rebound when it does not. *)
Lemma parse_entry_frame e o r o' k :
  parse_entry int re_valid e o = (r, o') ->
  head (values e) <> Some (CStr k) ->
  o' !! k = o !! k.
Proof.
  intros H Hk. apply parse_entry_cases in H.
  destruct r as [[] | x]; [| by subst ].
  destruct H as (key & v & Hhd & _ & ->).
  apply lookup_insert_ne. congruence.
Qed.

Lemma parse_entry_dom e o r o' :
  parse_entry int re_valid e o = (r, o') ->
  dom o = dom DEFAULTS -> dom o' = dom DEFAULTS.
Proof.
  intros H Hdom. apply parse_entry_cases in H.
  destruct r as [[] | x]; [| by subst ].
  destruct H as (key & v & _ & Hin & ->).
  rewrite dom_insert_L, Hdom. clear Hdom. revert Hin.
  generalize (dom DEFAULTS). intros D Hin. apply set_eq. intros x.
  rewrite elem_of_union, elem_of_singleton.
  split; [ by intros [-> | ?] | by right ].
Qed.

End Entry.

(** ** One entry, forwards *)

Lemma default_file_key : "default-file" ∈ dom DEFAULTS.
Proof. apply DEFAULTS_keys_classified. left. split; [ by left | done ]. Qed.

Lemma insert_entry_key : "insert-entry" ∈ dom DEFAULTS.
Proof. apply DEFAULTS_keys_classified. left. split; [ by right | done ]. Qed.

Lemma assert_key_known key o :
  key ∈ dom DEFAULTS -> assert_key (CStr key) o = (Ok key, o).
Proof.
  intros H. cbn [assert_key]. rewrite bind_run. unfold assert.
  by rewrite (bool_decide_eq_true_2 _ H).
Qed.

Lemma assert_key_unknown k o :
  (forall key, k = CStr key -> key ∉ dom DEFAULTS) ->
  assert_key k o = (Raise AssertionError, o).
Proof.
  intros H. destruct k as [key | | |]; try reflexivity.
  cbn [assert_key]. rewrite bind_run. unfold assert.
  by rewrite (bool_decide_eq_false_2 _ (H key eq_refl)).
Qed.

Section Forwards.

Variable int : string -> option Z.
Variable re_valid : string -> bool.

Lemma parse_entry_values e o :
  parse_entry int re_valid e o =
    match values e with
    | [] => (Raise IndexError, o)
    | k :: _ =>
        (key ← assert_key k;
         value ← read_value re_valid e key;
         processed_value ← process_value int key value;
         store_value key processed_value) o
    end.
Proof. unfold parse_entry. by destruct (values e). Qed.

Lemma parse_entry_no_values e o :
  values e = [] -> parse_entry int re_valid e o = (Raise IndexError, o).
Proof. intros Hv. by rewrite parse_entry_values, Hv. Qed.

Lemma parse_entry_unknown e k rest o :
  values e = k :: rest ->
  (forall key, k = CStr key -> key ∉ dom DEFAULTS) ->
  parse_entry int re_valid e o = (Raise AssertionError, o).
Proof.
  intros Hv Hk. rewrite parse_entry_values, Hv.
  by rewrite bind_run, assert_key_unknown.
Qed.

Lemma parse_entry_default_file e rest o :
  values e = CStr "default-file" :: rest ->
  parse_entry int re_valid e o =
    (Ok tt, <["default-file" := VStr (filename (meta e))]> o).
Proof.
  intros Hv. rewrite parse_entry_values, Hv.
  rewrite bind_run, (assert_key_known _ _ default_file_key).
  reflexivity.
Qed.

Lemma parse_entry_insert_entry e rest o :
  values e = CStr "insert-entry" :: rest ->
  parse_entry int re_valid e o =
    match rest with
    | [] => (Raise IndexError, o)
    | CStr s :: _ =>
        if re_valid s then
          append "insert-entry"
            (VInsertEntry {| ie_date := date e; ie_re := {| pattern := s |};
                             ie_filename := filename (meta e);
                             ie_lineno := lineno (meta e) |}) o
        else (Raise re_error, o)
    | _ :: _ => (Raise TypeError, o)
    end.
Proof.
  intros Hv. rewrite parse_entry_values, Hv.
  rewrite bind_run, (assert_key_known _ _ insert_entry_key).
  rewrite bind_run. unfold read_value. cbn [String.eqb Ascii.eqb Bool.eqb].
  rewrite Hv. destruct rest as [| [s | | |] rest]; try reflexivity.
  rewrite !bind_run. cbn [getitem lookup list_lookup]. mrun.
  destruct (re_valid s); [| reflexivity ].
  destruct (o !! "insert-entry") as [[] |]; reflexivity.
Qed.

Lemma read_value_generic e key o :
  key <> "default-file" -> key <> "insert-entry" ->
  read_value re_valid e key o =
    (v ← getitem (values e) 1; s ← assert_str v; mret (Some s)) o.
Proof.
  intros H1 H2. unfold read_value.
  by rewrite (proj2 (String.eqb_neq _ _) H1), (proj2 (String.eqb_neq _ _) H2).
Qed.

Lemma parse_entry_typed e key rest o :
  typed key = true -> values e = CStr key :: rest ->
  parse_entry int re_valid e o =
    match rest with
    | [] => (Raise IndexError, o)
    | CStr v :: _ =>
        (processed_value ← process_value int key (Some v);
         store_value key processed_value) o
    | _ :: _ => (Raise AssertionError, o)
    end.
Proof.
  intros Hty Hv. destruct (typed_keys_in_DEFAULTS _ Hty) as (Hin & Hdf & Hie).
  rewrite parse_entry_values, Hv, bind_run, (assert_key_known _ _ Hin).
  rewrite bind_run, read_value_generic by done. rewrite Hv.
  destruct rest as [| [v | | |] rest]; reflexivity.
Qed.

End Forwards.

(** ** The coercions, by type list *)

Lemma BOOL_OPTS_typed key :
  key ∈ BOOL_OPTS -> typed key = true /\ mem key MULTI_OPTS = false.
Proof. intros H. each_key H; by split. Qed.

Lemma INT_OPTS_typed key :
  key ∈ INT_OPTS -> typed key = true /\ mem key MULTI_OPTS = false.
Proof. intros H. each_key H; by split. Qed.

Lemma LIST_OPTS_typed key :
  key ∈ LIST_OPTS -> typed key = true /\ mem key MULTI_OPTS = false.
Proof. intros H. each_key H; by split. Qed.

Lemma STR_OPTS_typed key : key ∈ STR_OPTS -> typed key = true.
Proof. intros H. by each_key H. Qed.

Section Coercions.

Variable int : string -> option Z.
Variable re_valid : string -> bool.

Lemma process_value_str key v o :
  key ∈ STR_OPTS ->
  process_value int key (Some v) o = (Ok (Some (VStr v)), o).
Proof.
  intros H. unfold process_value. by rewrite (proj2 (mem_true _ _) H).
Qed.

Lemma process_value_bool key v o :
  key ∈ BOOL_OPTS ->
  process_value int key (Some v) o =
    (Ok (Some (VBool (String.eqb (PyStr.lower v) "true"))), o).
Proof.
  intros H. destruct (type_lists_disjoint key) as (Hs & _).
  unfold process_value. by rewrite (Hs H), (proj2 (mem_true _ _) H).
Qed.

Lemma process_value_int key v o :
  key ∈ INT_OPTS ->
  process_value int key (Some v) o =
    match int v with
    | Some n => (Ok (Some (VInt n)), o)
    | None => (Raise ValueError, o)
    end.
Proof.
  intros H. destruct (type_lists_disjoint key) as (_ & Hi & _).
  destruct (Hi H) as [Hs Hb].
  unfold process_value. rewrite Hs, Hb, (proj2 (mem_true _ _) H).
  mrun. by destruct (int v).
Qed.

Lemma process_value_list key v o :
  key ∈ LIST_OPTS ->
  process_value int key (Some v) o =
    (Ok (Some (strs (PyStr.split_space (PyStr.strip v)))), o).
Proof.
  intros H. destruct (type_lists_disjoint key) as (_ & _ & Hl).
  destruct (Hl H) as (Hs & Hb & Hi).
  unfold process_value. by rewrite Hs, Hb, Hi, (proj2 (mem_true _ _) H).
Qed.

(** The coercion does not look at the options. *)
Lemma process_value_state key value o r o' o2 :
  process_value int key value o = (r, o') ->
  process_value int key value o2 = (r, o2).
Proof.
  unfold process_value. mrun.
  repeat case_match; intros; by simplify_eq.
Qed.

Lemma coerced_typed key v pv :
  coerced int key v = Some pv -> typed key = true.
Proof.
  unfold coerced. destruct (typed key) eqn:Hty; [ done |].
  by rewrite process_value_untyped.
Qed.

Lemma process_value_coerced key v pv o :
  coerced int key v = Some pv ->
  process_value int key (Some v) o = (Ok (Some pv), o).
Proof.
  unfold coerced.
  destruct (process_value int key (Some v) ∅) as [[pv' | x] o1] eqn:H;
    [| done ].
  intros ->. by apply (process_value_state _ _ _ _ _ o) in H.
Qed.

Lemma store_value_set key pv o :
  mem key MULTI_OPTS = false ->
  store_value key (Some pv) o = (Ok tt, <[key := pv]> o).
Proof. intros H. unfold store_value. by rewrite H. Qed.

Lemma store_value_append key pv l o :
  mem key MULTI_OPTS = true -> o !! key = Some (VList l) ->
  store_value key (Some pv) o = (Ok tt, <[key := VList (l ++ [pv])]> o).
Proof. intros H Hl. unfold store_value, append. by rewrite H, Hl. Qed.

(** An accepted directive for a key that is not repeatable. *)
Lemma parse_entry_set e key v rest pv o :
  values e = CStr key :: CStr v :: rest ->
  coerced int key v = Some pv -> mem key MULTI_OPTS = false ->
  parse_entry int re_valid e o = (Ok tt, <[key := pv]> o).
Proof.
  intros Hv Hc Hm.
  rewrite (parse_entry_typed _ _ _ _ _ _ (coerced_typed _ _ _ Hc) Hv).
  rewrite bind_run, (process_value_coerced _ _ _ _ Hc).
  by apply store_value_set.
Qed.

(** ** The loop *)

Lemma parse_loop_app es1 es2 o errs :
  parse_loop int re_valid (es1 ++ es2) o errs =
    match parse_loop int re_valid es1 o errs with
    | Ok (o', errs') => parse_loop int re_valid es2 o' errs'
    | Raise x => Raise x
    end.
Proof.
  revert o errs. induction es1 as [| e es1 IH]; intros o errs; [ done |].
  cbn [app parse_loop]. destruct (String.eqb _ _); [| apply IH ].
  destruct (parse_entry _ _ e o) as [[[] | x] o']; [ apply IH |].
  destruct (caught x); [ apply IH | done ].
Qed.

(** The errors found so far are only ever extended. *)
Lemma parse_loop_errors es o errs :
  parse_loop int re_valid es o errs =
    match parse_loop int re_valid es o [] with
    | Ok (o', errs') => Ok (o', (errs ++ errs')%list)
    | Raise x => Raise x
    end.
Proof.
  revert o errs. induction es as [| e es IH]; intros o errs.
  { cbn [parse_loop]. by rewrite app_nil_r. }
  cbn [parse_loop]. destruct (String.eqb _ _); [| apply IH ].
  destruct (parse_entry _ _ e o) as [[[] | x] o']; [ apply IH |].
  destruct (caught x); [| done ].
  rewrite IH, (IH _ ([] ++ _)%list).
  destruct (parse_loop _ _ es o' []) as [[o2 errs2] | y]; [| done ].
  by rewrite <- app_assoc.
Qed.

Lemma parse_loop_skip e es o errs :
  type e <> "fava-option" ->
  parse_loop int re_valid (e :: es) o errs = parse_loop int re_valid es o errs.
Proof.
  intros H. cbn [parse_loop]. by rewrite (proj2 (String.eqb_neq _ _) H).
Qed.

Lemma parse_loop_step e es o errs :
  type e = "fava-option" ->
  parse_loop int re_valid (e :: es) o errs =
    match parse_entry int re_valid e o with
    | (Ok _, o') => parse_loop int re_valid es o' errs
    | (Raise x, o') =>
        if caught x
        then parse_loop int re_valid es o' (errs ++ [option_error e])
        else Raise x
    end.
Proof. intros H. cbn [parse_loop]. by rewrite H. Qed.

(** One directive after a prefix that has been parsed. *)
Lemma parse_options_step pre e post o errs :
  parse_options int re_valid pre = Ok (o, errs) ->
  type e = "fava-option" ->
  parse_options int re_valid (pre ++ e :: post) =
    match parse_entry int re_valid e o with
    | (Ok _, o') => parse_loop int re_valid post o' errs
    | (Raise x, o') =>
        if caught x
        then parse_loop int re_valid post o' (errs ++ [option_error e])
        else Raise x
    end.
Proof.
  unfold parse_options. intros Hpre Hty.
  by rewrite parse_loop_app, Hpre, parse_loop_step.
Qed.

Lemma parse_options_app pre post o errs :
  parse_options int re_valid pre = Ok (o, errs) ->
  parse_options int re_valid (pre ++ post) = parse_loop int re_valid post o errs.
Proof. unfold parse_options. intros Hpre. by rewrite parse_loop_app, Hpre. Qed.

Lemma parse_options_prefix pre post o errs :
  parse_options int re_valid (pre ++ post) = Ok (o, errs) ->
  exists o1 errs1,
    parse_options int re_valid pre = Ok (o1, errs1)
    /\ parse_loop int re_valid post o1 errs1 = Ok (o, errs).
Proof.
  unfold parse_options. rewrite parse_loop_app.
  destruct (parse_loop _ _ pre _ _) as [[o1 errs1] | x]; [| done ].
  by eauto.
Qed.

Lemma parse_loop_dom es o errs o' errs' :
  parse_loop int re_valid es o errs = Ok (o', errs') ->
  dom o = dom DEFAULTS -> dom o' = dom DEFAULTS.
Proof.
  revert o errs. induction es as [| e es IH]; intros o errs.
  { by intros [= <- <-]. }
  cbn [parse_loop]. destruct (String.eqb _ _); [| apply IH ].
  destruct (parse_entry _ _ e o) as [r o1] eqn:He.
  intros H Hdom. pose proof (parse_entry_dom _ _ _ _ _ _ He Hdom) as Hdom1.
  destruct r as [[] | x]; [ by eapply IH |].
  destruct (caught x); [ by eapply IH | done ].
Qed.

(** Entries that do not name [k] leave [k] alone. *)
Lemma parse_loop_frame k es o errs o' errs' :
  Forall (fun e => type e = "fava-option" ->
                   head (values e) <> Some (CStr k)) es ->
  parse_loop int re_valid es o errs = Ok (o', errs') ->
  o' !! k = o !! k.
Proof.
  intros Hes. revert o errs.
  induction Hes as [| e es He Hes IH]; intros o errs.
  { by intros [= <- <-]. }
  cbn [parse_loop]. destruct (String.eqb_spec (type e) "fava-option") as [Hty |];
    [| apply IH ].
  destruct (parse_entry _ _ e o) as [r o1] eqn:H1.
  pose proof (parse_entry_frame _ _ _ _ _ _ k H1 (He Hty)) as <-.
  destruct r as [[] | x]; [ by apply IH |].
  destruct (caught x); [ by apply IH | done ].
Qed.

End Coercions.

(** * The properties stated by the specification *)

Section Claims.

Variable int : string -> option Z.
Variable re_valid : string -> bool.

Lemma parse_entry_bad_int e key v rest o :
  values e = CStr key :: CStr v :: rest ->
  key ∈ INT_OPTS -> int v = None ->
  parse_entry int re_valid e o = (Raise ValueError, o).
Proof.
  intros Hv Hk Hint. destruct (INT_OPTS_typed _ Hk) as [Htyped _].
  rewrite (parse_entry_typed _ _ _ _ _ _ Htyped Hv), bind_run.
  by rewrite process_value_int, Hint.
Qed.

Lemma parse_entry_bad_re e s rest o :
  values e = CStr "insert-entry" :: CStr s :: rest ->
  re_valid s = false ->
  parse_entry int re_valid e o = (Raise re_error, o).
Proof.
  intros Hv Hre. by rewrite (parse_entry_insert_entry _ _ _ _ _ Hv), Hre.
Qed.

Lemma parse_entry_fatal e o :
  fatal int re_valid e = true ->
  exists x, parse_entry int re_valid e o = (Raise x, o) /\ caught x = false.
Proof.
  unfold fatal. rewrite andb_true_iff. intros [_ H].
  destruct (values e) as [| [key | | |] [| [v | | |] rest]] eqn:Hv; try done.
  apply orb_true_iff in H as [H | H]; apply andb_true_iff in H as [Hk H].
  - exists ValueError. split; [| done ].
    apply (parse_entry_bad_int _ key v rest); [ done | by apply mem_true |].
    apply negb_true_iff, bool_decide_eq_false in H.
    destruct (int v); [| done ]. by destruct H.
  - exists re_error. split; [| done ].
    apply String.eqb_eq in Hk as ->.
    apply (parse_entry_bad_re _ v rest); [ done | by apply negb_true_iff ].
Qed.

Lemma parse_loop_fatal es o errs :
  existsb (fatal int re_valid) es = true ->
  exists x, parse_loop int re_valid es o errs = Raise x /\ caught x = false.
Proof.
  revert o errs. induction es as [| e es IH]; intros o errs; [ done |].
  cbn [existsb]. destruct (fatal int re_valid e) eqn:Hf.
  - intros _. destruct (parse_entry_fatal e o Hf) as (x & Hx & Hc).
    exists x. split; [| done ].
    apply andb_true_iff in Hf as [Hty _]. apply String.eqb_eq in Hty.
    by rewrite parse_loop_step, Hx, Hc.
  - cbn [orb]. intros Hes. cbn [parse_loop].
    destruct (String.eqb _ _); [| by apply IH ].
    destruct (parse_entry _ _ e o) as [[[] | x] o1]; [ by apply IH |].
    destruct (caught x) eqn:Hc; [ by apply IH | by eauto ].
Qed.

(** C1 (the code departs from the claim).  A directive for an integer
    option whose string [int] rejects is not turned into an
    [OptionError]: [ValueError] is not in the caught tuple, so the whole
    call raises it, whatever was parsed before and whatever follows, and
    no options and no errors are returned. *)
Theorem int_option_not_numeric_raises pre e post key v rest o errs :
  parse_options int re_valid pre = Ok (o, errs) ->
  type e = "fava-option" ->
  values e = CStr key :: CStr v :: rest ->
  key ∈ INT_OPTS -> int v = None ->
  parse_options int re_valid (pre ++ e :: post) = Raise ValueError.
Proof.
  intros Hpre Hty Hv Hk Hint.
  rewrite (parse_options_step _ _ _ _ _ _ _ Hpre Hty).
  by rewrite (parse_entry_bad_int _ _ _ _ _ Hv Hk Hint).
Qed.

(** C2 (the code departs from the claim).  An [insert-entry] directive
    whose string [re.compile] rejects is not turned into an
    [OptionError]: the exception of [re.compile] is not in the caught
    tuple, so the whole call raises it and returns nothing. *)
Theorem insert_entry_invalid_regex_raises pre e post s rest o errs :
  parse_options int re_valid pre = Ok (o, errs) ->
  type e = "fava-option" ->
  values e = CStr "insert-entry" :: CStr s :: rest ->
  re_valid s = false ->
  parse_options int re_valid (pre ++ e :: post) = Raise re_error.
Proof.
  intros Hpre Hty Hv Hre.
  rewrite (parse_options_step _ _ _ _ _ _ _ Hpre Hty).
  by rewrite (parse_entry_bad_re _ _ _ _ Hv Hre).
Qed.

(** C3 (the code departs from the claim).  The call does not return for
    every input: as soon as one directive of the sequence is an integer
    option with a non-numeric string or an [insert-entry] with an invalid
    pattern, [parse_options] raises an exception outside the caught
    tuple, and the results of all the other directives, earlier and
    later, are lost with it. *)
Theorem fatal_directive_ends_the_run es :
  existsb (fatal int re_valid) es = true ->
  exists x, parse_options int re_valid es = Raise x /\ caught x = false.
Proof. apply parse_loop_fatal. Qed.

(** C4.  A [fava-option] directive whose first value is not a key of
    [DEFAULTS] adds exactly one [OptionError], with the fixed message and
    the [meta] of the directive, after the errors of the directives
    before it; the options, and the other errors, are those of the run
    without the directive. *)
Theorem unknown_key_one_error pre e post k rest o1 errs1 :
  parse_options int re_valid pre = Ok (o1, errs1) ->
  type e = "fava-option" ->
  values e = k :: rest ->
  (forall key, k = CStr key -> key ∉ dom DEFAULTS) ->
  parse_options int re_valid (pre ++ e :: post) =
    match parse_options int re_valid (pre ++ post) with
    | Ok (o, errs) =>
        Ok (o, (errs1
                ++ {| source := meta e;
                      message := "Failed to parse fava-option entry";
                      entry := e |}
                :: drop (List.length errs1) errs)%list)
    | Raise x => Raise x
    end.
Proof.
  intros Hpre Hty Hv Hk.
  rewrite (parse_options_step _ _ _ _ _ _ _ Hpre Hty).
  rewrite (parse_entry_unknown _ _ _ _ _ _ Hv Hk). cbn [caught].
  rewrite (parse_options_app _ _ _ _ _ _ Hpre).
  rewrite parse_loop_errors, (parse_loop_errors _ _ post o1 errs1).
  destruct (parse_loop _ _ post o1 []) as [[o errs2] | x]; [| done ].
  by rewrite drop_app_length, <- app_assoc.
Qed.

(** C5.  A directive for a boolean option with a string value always
    succeeds: the option becomes [true] when the lowercased string is
    ["true"] and [false] for every other string, and the error list is
    left as it was.  ["TRUE"], ["True"] and ["true"] give [true];
    ["false"] and ["yes"] give [false]. *)
Theorem bool_option_lenient pre e post key v rest o errs :
  parse_options int re_valid pre = Ok (o, errs) ->
  type e = "fava-option" ->
  values e = CStr key :: CStr v :: rest ->
  key ∈ BOOL_OPTS ->
  parse_options int re_valid (pre ++ e :: post) =
    parse_loop int re_valid post
      (<[key := VBool (String.eqb (PyStr.lower v) "true")]> o) errs
  /\ (v ∈ ["TRUE"; "True"; "true"] ->
      String.eqb (PyStr.lower v) "true" = true)
  /\ (v ∈ ["false"; "yes"] -> String.eqb (PyStr.lower v) "true" = false).
Proof.
  intros Hpre Hty Hv Hk. split; [| split; intros H; by each_key H ].
  rewrite (parse_options_step _ _ _ _ _ _ _ Hpre Hty).
  destruct (BOOL_OPTS_typed _ Hk) as [Htyped Hm].
  rewrite (parse_entry_typed _ _ _ _ _ _ Htyped Hv), bind_run.
  by rewrite process_value_bool, store_value_set.
Qed.

Lemma directive_value_head key e pv :
  directive_value int key e = Some pv ->
  type e = "fava-option" /\ exists v rest,
    values e = CStr key :: CStr v :: rest /\ coerced int key v = Some pv.
Proof.
  unfold directive_value.
  destruct (String.eqb_spec (type e) "fava-option"); [| done ].
  destruct (values e) as [| [k | | |] [| [v | | |] rest]]; try done.
  destruct (String.eqb_spec k key) as [-> |]; [| done ]. by eauto.
Qed.

Lemma directive_value_other key e :
  type e = "fava-option" -> head (values e) <> Some (CStr key) ->
  directive_value int key e = None.
Proof.
  intros Hty Hhd. destruct (directive_value int key e) eqn:H; [| done ].
  apply directive_value_head in H as (_ & v & rest & Hv & _).
  by rewrite Hv in Hhd.
Qed.

Lemma head_key_cases (l : list cvalue) key :
  head l = Some (CStr key) \/ head l <> Some (CStr key).
Proof.
  destruct l as [| [k | | |] rest]; try (by right).
  destruct (String.eqb_spec k key) as [-> |]; [ by left |].
  right. cbn. congruence.
Qed.

(** One entry and the list of a repeatable option. *)
Lemma parse_entry_multi e o r o' l :
  type e = "fava-option" ->
  parse_entry int re_valid e o = (r, o') ->
  o !! "collapse-pattern" = Some (VList l) ->
  o' !! "collapse-pattern" =
    Some (VList (l ++ option_list (directive_value int "collapse-pattern" e))).
Proof.
  intros Hty H Hl.
  destruct (head_key_cases (values e) "collapse-pattern") as [Hhd | Hhd].
  - destruct (values e) as [| k rest] eqn:Hv; [ done |].
    injection Hhd as ->. unfold directive_value.
    rewrite (proj2 (String.eqb_eq _ _) Hty), Hv.
    rewrite (parse_entry_typed _ _ _ "collapse-pattern" rest) in H by done.
    destruct rest as [| [v | | |] rest];
      try (injection H as <- <-; by rewrite app_nil_r).
    rewrite bind_run, process_value_str in H
      by (apply (bool_decide_unpack _); by vm_compute).
    rewrite (store_value_append _ _ l) in H by done.
    injection H as <- <-. by rewrite lookup_insert_eq.
  - rewrite (directive_value_other _ _ Hty Hhd), app_nil_r, <- Hl.
    by eapply parse_entry_frame.
Qed.

Lemma parse_loop_multi es o errs o' errs' l :
  parse_loop int re_valid es o errs = Ok (o', errs') ->
  o !! "collapse-pattern" = Some (VList l) ->
  o' !! "collapse-pattern" =
    Some (VList (l ++ accepted_values int "collapse-pattern" es)).
Proof.
  revert o errs l. induction es as [| e es IH]; intros o errs l.
  { intros [= <- <-] ->. by rewrite app_nil_r. }
  cbn [parse_loop]. unfold accepted_values. cbn [omap list_omap].
  fold (accepted_values int "collapse-pattern" es).
  destruct (String.eqb_spec (type e) "fava-option") as [Hty | Hty].
  - destruct (parse_entry _ _ e o) as [r o1] eqn:He. intros H Hl.
    pose proof (parse_entry_multi _ _ _ _ _ Hty He Hl) as Hl1.
    assert (parse_loop int re_valid es o1
              (if r is Ok _ then errs else (errs ++ [option_error e])%list)
            = Ok (o', errs')) as H'.
    { destruct r as [[] | x]; [ done |]. by destruct (caught x). }
    rewrite (IH _ _ _ H' Hl1), <- app_assoc.
    by destruct (directive_value _ _ e).
  - intros H Hl. rewrite (IH _ _ _ H Hl).
    unfold directive_value. by rewrite (proj2 (String.eqb_neq _ _) Hty).
Qed.

(** C6.  Directives are applied in input order.  For a key that is not
    repeatable, the value after the run is the coercion of the last
    directive that names the key.  For a repeatable key, the value
    after the run is the default list followed by the coerced values of
    the directives that name the key, in input order. *)
Theorem directives_apply_in_order es o errs :
  parse_options int re_valid es = Ok (o, errs) ->
  (forall pre e post key v rest pv,
     es = (pre ++ e :: post)%list ->
     type e = "fava-option" ->
     values e = CStr key :: CStr v :: rest ->
     coerced int key v = Some pv ->
     key ∉ MULTI_OPTS ->
     Forall (fun e' => type e' = "fava-option" ->
                       head (values e') <> Some (CStr key)) post ->
     o !! key = Some pv)
  /\ (forall key, key ∈ MULTI_OPTS ->
        exists l, DEFAULTS !! key = Some (VList l)
          /\ o !! key = Some (VList (l ++ accepted_values int key es))).
Proof.
  intros Hrun. split.
  - intros pre e post key v rest pv -> Hty Hv Hc Hm Hpost.
    apply parse_options_prefix in Hrun as (o1 & errs1 & _ & Hrun).
    rewrite (parse_loop_step _ _ _ _ _ _ Hty) in Hrun.
    rewrite (parse_entry_set _ _ _ _ _ _ _ _ Hv Hc) in Hrun
      by (by apply mem_false).
    rewrite (parse_loop_frame _ _ _ _ _ _ _ _ Hpost Hrun).
    by rewrite lookup_insert_eq.
  - intros key Hk. each_key Hk. exists []. split; [ done |].
    by apply (parse_loop_multi _ _ _ _ _ _ Hrun).
Qed.

(** C7.  On a sequence without any [fava-option] entry, the empty
    sequence among them, the call returns the [DEFAULTS] table, nested
    lists included, and no error. *)
Theorem no_directive_gives_defaults es :
  Forall (fun e => type e <> "fava-option") es ->
  parse_options int re_valid es = Ok (DEFAULTS, []).
Proof.
  unfold parse_options, deepcopy. generalize (@nil OptionError).
  induction 1 as [| e es He _ IH]; [ done |].
  by rewrite parse_loop_skip.
Qed.

(** C9.  The options returned have exactly the keys of [DEFAULTS]: no
    directive adds a key or removes one. *)
Theorem key_set_preserved es o errs :
  parse_options int re_valid es = Ok (o, errs) ->
  dom o = dom DEFAULTS.
Proof. intros H. by apply (parse_loop_dom _ _ _ _ _ _ _ H). Qed.

(** C10.  A [default-file] directive is accepted whatever follows the
    key, nothing included: the option becomes the [filename] of the
    [meta] of the directive, no error is added, and the values after the
    key are not read. *)
Theorem default_file_needs_no_value pre e post rest o errs :
  parse_options int re_valid pre = Ok (o, errs) ->
  type e = "fava-option" ->
  values e = CStr "default-file" :: rest ->
  parse_options int re_valid (pre ++ e :: post) =
    parse_loop int re_valid post
      (<["default-file" := VStr (filename (meta e))]> o) errs.
Proof.
  intros Hpre Hty Hv.
  rewrite (parse_options_step _ _ _ _ _ _ _ Hpre Hty).
  by rewrite (parse_entry_default_file _ _ _ _ _ Hv).
Qed.

End Claims.

(** * The store *)

Lemma prefix_insert_above {A} (h0 h : list A) l x :
  h0 `prefix_of` h -> (length h0 <= l)%nat -> h0 `prefix_of` <[l := x]> h.
Proof.
  intros [k ->] Hl. exists (<[(l - length h0)%nat := x]> k).
  by apply insert_app_r_alt.
Qed.

Lemma fresh_list_prefix h0 h h' l :
  h `prefix_of` h' -> fresh_list h0 h l -> fresh_list h0 h' l.
Proof.
  intros Hp [Hl [xs Hxs]]. split; [ done |].
  exists xs. by eapply prefix_lookup_Some.
Qed.

Section Triples.

Context {I : Store.heap -> Prop}.

Lemma triple_ret {A} (P : Store.heap -> Prop) (a : A)
    (Q : A -> Store.heap -> Prop) :
  (forall h, P h -> Q a h) -> triple I P (mret a) Q.
Proof. intros HQ h HI HP. split; [ done | by apply HQ ]. Qed.

Lemma triple_bind {A B} P (m : Store.St A) Q (f : A -> Store.St B) R :
  triple I P m Q -> (forall a, triple I (Q a) (f a) R) ->
  triple I P (m ≫= f) R.
Proof.
  intros Hm Hf h HI HP. specialize (Hm h HI HP).
  cbv beta delta [mbind Store.St_bind].
  destruct (m h) as [[a | x |] h1]; [| done .. ].
  destruct Hm as [HI1 HQ]. apply (Hf a h1 HI1 HQ).
Qed.

Lemma triple_weaken {A} (P P' : Store.heap -> Prop) (m : Store.St A)
    (Q Q' : A -> Store.heap -> Prop) :
  triple I P' m Q' -> (forall h, P h -> P' h) ->
  (forall a h, Q' a h -> Q a h) -> triple I P m Q.
Proof.
  intros Hm HP HQ h HI Hh. specialize (Hm h HI (HP h Hh)).
  destruct (m h) as [[a | x |] h1]; [| done .. ].
  destruct Hm as [HI1 Hq]. by split; [| apply HQ ].
Qed.

(** A statement that leaves the store alone and does not go wrong. *)
Lemma triple_pure {A} P (m : Store.St A) :
  (forall h, (m h).2 = h /\ (m h).1 <> Store.Wrong) ->
  triple I P m (fun _ h => P h).
Proof.
  intros Hm h HI HP. destruct (Hm h) as [H2 H1].
  destruct (m h) as [[a | x |] h1]; cbn in *; by subst.
Qed.

End Triples.

Lemma store_getitem_pure {A} (l : list A) i h :
  (Store.getitem l i h).2 = h /\ (Store.getitem l i h).1 <> Store.Wrong.
Proof. unfold Store.getitem. by destruct (l !! i). Qed.

Lemma store_assert_str_pure v h :
  (Store.assert_str v h).2 = h /\ (Store.assert_str v h).1 <> Store.Wrong.
Proof. by destruct v. Qed.

Lemma store_local_pure v h :
  (Store.local v h).2 = h /\ (Store.local v h).1 <> Store.Wrong.
Proof. by destruct v. Qed.

Section StoreFrame.

Variable int : string -> option Z.
Variable re_valid : string -> bool.
Variable h0 : Store.heap.
Variables D options : Store.loc.
Hypothesis HD : exists m0, h0 !! D = Some (Store.ODict m0).

Abbreviation inv := (store_inv h0 options).
Abbreviation any := (fun _ : Store.heap => True).

Lemma store_re_compile_pure v h :
  (Store.re_compile re_valid v h).2 = h
  /\ (Store.re_compile re_valid v h).1 <> Store.Wrong.
Proof.
  destruct v as [s | | |]; try done. cbn. by destruct (re_valid s).
Qed.

Lemma store_int_of_pure s h :
  (Store.int_of int s h).2 = h /\ (Store.int_of int s h).1 <> Store.Wrong.
Proof. unfold Store.int_of. by destruct (int s). Qed.

Lemma store_assert_key k :
  triple inv any (Store.assert_key D k) (fun _ _ => True).
Proof.
  intros h Hinv _. destruct HD as [m0 Hm0].
  pose proof Hinv as (Hpre & _).
  pose proof (prefix_lookup_Some _ _ _ _ Hm0 Hpre) as Hm.
  destruct k as [key | | |]; try done.
  cbv beta iota delta [Store.assert_key mbind Store.St_bind Store.get_dict].
  rewrite Hm. unfold Store.assert.
  by destruct (bool_decide_reflect (key ∈ dom m0)).
Qed.

Lemma store_setitem key v :
  triple inv (fun h => if v is Store.Ref l then fresh_list h0 h l else True)
    (Store.setitem options key v) (fun _ _ => True).
Proof.
  intros h (Hpre & Hopts & m & Hm & Hrefs) Hv.
  unfold Store.setitem. rewrite Hm. split; [| done ].
  assert (options < length h)%nat as Hlt by by eapply lookup_lt_Some.
  assert (forall l, fresh_list h0 h l ->
            fresh_list h0 (<[options := Store.ODict (<[key := v]> m)]> h) l)
    as Hkeep.
  { intros l [Hl [xs Hxs]]. split; [ done |]. exists xs.
    rewrite list_lookup_insert_ne; [ done |]. intros <-. congruence. }
  split; [ by apply prefix_insert_above |]. split; [ done |].
  eexists. split; [ by apply list_lookup_insert_eq |].
  intros key' l. destruct (decide (key' = key)) as [-> |].
  - rewrite lookup_insert_eq. intros [= ->]. by apply Hkeep.
  - rewrite lookup_insert_ne by done. intros Hl. by eapply Hkeep, Hrefs.
Qed.

Lemma store_append key x :
  triple inv any (Store.append options key x) (fun _ _ => True).
Proof.
  intros h (Hpre & Hopts & m & Hm & Hrefs) _.
  unfold Store.append. rewrite Hm.
  destruct (m !! key) as [[v | l] |] eqn:Hkey;
    [ by repeat split; eauto .. | | by repeat split; eauto ].
  destruct (Hrefs _ _ Hkey) as [Hl [xs Hxs]]. rewrite Hxs.
  split; [| done ]. split; [ by apply prefix_insert_above |].
  split; [ done |]. exists m. split.
  { rewrite list_lookup_insert_ne; [ done |]. intros <-. congruence. }
  intros key' l' Hl'. destruct (Hrefs _ _ Hl') as [Hge [ys Hys]].
  split; [ done |]. destruct (decide (l' = l)) as [-> |].
  - eexists. apply list_lookup_insert_eq. by eapply lookup_lt_Some.
  - exists ys. by rewrite list_lookup_insert_ne.
Qed.

Lemma store_alloc_list xs :
  triple inv any (Store.alloc (Store.OList xs))
    (fun l h => fresh_list h0 h l).
Proof.
  intros h (Hpre & Hopts & m & Hm & Hrefs) _. unfold Store.alloc.
  assert (h `prefix_of` h ++ [Store.OList xs]) as Hext
    by by apply prefix_app_r.
  split.
  - split; [ by etrans |]. split; [ done |]. exists m.
    split; [ by eapply prefix_lookup_Some |].
    intros key l Hl. by eapply fresh_list_prefix, Hrefs.
  - split; [ by apply prefix_length |].
    exists xs. by rewrite lookup_app_r, Nat.sub_diag.
Qed.

Lemma store_read_value e key :
  triple inv any (Store.read_value re_valid options e key)
    (fun _ _ => True).
Proof.
  unfold Store.read_value.
  destruct (String.eqb key "default-file").
  { eapply triple_bind; [ by apply (store_setitem _ (Store.Imm _)) |].
    intros []. by apply triple_ret. }
  destruct (String.eqb key "insert-entry").
  { eapply triple_bind; [ apply triple_pure, store_getitem_pure |].
    intros v. eapply triple_bind; [ apply triple_pure, store_re_compile_pure |].
    intros re. eapply triple_bind; [ apply store_append |].
    intros []. by apply triple_ret. }
  eapply triple_bind; [ apply triple_pure, store_getitem_pure |].
  intros v. eapply triple_bind; [ apply triple_pure, store_assert_str_pure |].
  intros s. by apply triple_ret.
Qed.

Lemma store_process_value key value :
  triple inv any (Store.process_value int key value) (storable h0 key).
Proof.
  unfold Store.process_value.
  destruct (mem key STR_OPTS) eqn:Hs.
  { eapply triple_bind; [ apply triple_pure, store_local_pure |].
    intros s. by apply triple_ret. }
  destruct (mem key BOOL_OPTS).
  { eapply triple_bind; [ apply triple_pure, store_local_pure |].
    intros s. by apply triple_ret. }
  destruct (mem key INT_OPTS).
  { eapply triple_bind; [ apply triple_pure, store_local_pure |].
    intros s. eapply triple_bind; [ apply triple_pure, store_int_of_pure |].
    intros n. by apply triple_ret. }
  destruct (mem key LIST_OPTS).
  { eapply triple_bind; [ apply triple_pure, store_local_pure |].
    intros s. eapply triple_bind; [ apply store_alloc_list |].
    intros l. apply triple_ret. intros h Hl. split; [ done |].
    destruct (mem key MULTI_OPTS) eqn:Hm; [| done ].
    apply MULTI_OPTS_only in Hm as ->. discriminate Hs. }
  by apply triple_ret.
Qed.

Lemma store_store_value key pv :
  triple inv (storable h0 key pv) (Store.store_value options key pv)
    (fun _ _ => True).
Proof.
  unfold Store.store_value. destruct pv as [pv |].
  - destruct (mem key MULTI_OPTS) eqn:Hm.
    + destruct pv as [x | l].
      * eapply triple_weaken; [ apply store_append | done .. ].
      * intros h _ [_ ?]. congruence.
    + eapply triple_weaken; [ apply store_setitem | | done ].
      intros h. destruct pv; [ done | by intros [? _] ].
  - by apply triple_ret.
Qed.

Lemma store_parse_entry e :
  triple inv any (Store.parse_entry int re_valid D options e)
    (fun _ _ => True).
Proof.
  unfold Store.parse_entry.
  eapply triple_bind; [ apply triple_pure, store_getitem_pure |].
  intros k. eapply triple_bind; [ apply store_assert_key |].
  intros key. eapply triple_bind; [ apply store_read_value |].
  intros value. eapply triple_bind; [ apply store_process_value |].
  intros pv. apply store_store_value.
Qed.

Lemma store_parse_loop es errs h :
  inv h ->
  (Store.parse_loop int re_valid D es options errs h).1 <> Store.Wrong
  /\ inv (Store.parse_loop int re_valid D es options errs h).2.
Proof.
  revert errs h. induction es as [| e es IH]; intros errs h Hinv; [ done |].
  cbn [Store.parse_loop]. destruct (String.eqb _ _); [| by apply IH ].
  pose proof (store_parse_entry e h Hinv I) as He.
  destruct (Store.parse_entry _ _ _ _ e h) as [[[] | x |] h1]; [| | done ].
  - apply IH, He.
  - destruct (caught x); [ by apply IH | done ].
Qed.

End StoreFrame.

Lemma dict_ok_spec h d :
  Store.dict_ok h d = true <->
  exists m, h !! d = Some (Store.ODict m)
    /\ forall key v, m !! key = Some v -> is_Some (Store.read_val h v).
Proof.
  unfold Store.dict_ok. split.
  - destruct (h !! d) as [[xs | m] |]; try done.
    rewrite forallb_forall. intros H. exists m. split; [ done |].
    intros key v Hv. apply elem_of_map_to_list, list_elem_of_In, H in Hv.
    by apply bool_decide_eq_true in Hv.
  - intros (m & -> & H). apply forallb_forall. intros [key v] Hin.
    apply bool_decide_eq_true, (H key).
    by apply elem_of_map_to_list, list_elem_of_In.
Qed.

Lemma read_val_prefix h h' v :
  h `prefix_of` h' -> is_Some (Store.read_val h v) ->
  Store.read_val h' v = Store.read_val h v.
Proof.
  intros Hp. destruct v as [x | l]; [ done |]. cbn [Store.read_val].
  destruct (h !! l) as [o |] eqn:Hl; [| by intros [] ].
  by rewrite (prefix_lookup_Some _ _ _ _ Hl Hp).
Qed.

Lemma dict_ok_prefix h h' d :
  h `prefix_of` h' -> Store.dict_ok h d = true ->
  Store.dict_ok h' d = true /\ Store.read_dict h' d = Store.read_dict h d.
Proof.
  intros Hp. rewrite !dict_ok_spec. intros (m & Hm & H).
  pose proof (prefix_lookup_Some _ _ _ _ Hm Hp) as Hm'. split.
  - exists m. split; [ done |]. intros key v Hv.
    rewrite (read_val_prefix h) by eauto. eauto.
  - unfold Store.read_dict. rewrite Hm, Hm'. f_equal. apply map_eq. intros key.
    rewrite !lookup_omap. destruct (m !! key) as [v |] eqn:Hv; [| done ].
    apply read_val_prefix; eauto.
Qed.

Lemma store_copy_slots h0 slots memo h :
  h0 `prefix_of` h ->
  Forall (fun kv => is_Some (Store.read_val h0 kv.2)) slots ->
  (forall l l', memo !! l = Some l' -> fresh_list h0 h l') ->
  exists copied h',
    Store.copy_slots slots memo h = (Store.Done copied, h')
    /\ h `prefix_of` h'
    /\ forall key l, (key, Store.Ref l) ∈ copied -> fresh_list h0 h' l.
Proof.
  intros Hp Hslots. revert memo h Hp.
  induction Hslots as [| [key v] slots Hv _ IH]; intros memo h Hp Hmemo.
  { exists [], h. split; [ done |]. split; [ done |].
    by intros ? ? ?%elem_of_nil. }
  cbn [Store.copy_slots]. destruct v as [x | l].
  - destruct (IH memo h Hp Hmemo) as (copied & h' & Hc & Hp' & Hfresh).
    exists ((key, Store.Imm x) :: copied), h'.
    cbv beta delta [mbind Store.St_bind]. rewrite Hc.
    split; [ done |]. split; [ done |].
    intros k l [[=] | Hin]%elem_of_cons. eauto.
  - destruct (memo !! l) as [l' |] eqn:Hl.
    + destruct (IH memo h Hp Hmemo) as (copied & h' & Hc & Hp' & Hfresh).
      exists ((key, Store.Ref l') :: copied), h'.
      cbv beta delta [mbind Store.St_bind]. rewrite Hc.
      split; [ done |]. split; [ done |].
      intros k l2 [[= -> ->] | Hin]%elem_of_cons.
      * by eapply fresh_list_prefix, Hmemo.
      * eauto.
    + cbn [Store.read_val snd] in Hv.
      destruct (h0 !! l) as [[xs | m] |] eqn:Hl0; try by destruct Hv.
      pose proof (prefix_lookup_Some _ _ _ _ Hl0 Hp) as Hlh.
      assert (h `prefix_of` h ++ [Store.OList xs]) as Hext
        by by apply prefix_app_r.
      destruct (IH (<[l := length h]> memo) (h ++ [Store.OList xs]))
        as (copied & h' & Hc & Hp' & Hfresh).
      { by etrans. }
      { intros l1 l2. destruct (decide (l1 = l)) as [-> |].
        - rewrite lookup_insert_eq. intros [= <-].
          split; [ by apply prefix_length |].
          exists xs. by rewrite lookup_app_r, Nat.sub_diag.
        - rewrite lookup_insert_ne by done. intros H.
          by eapply fresh_list_prefix, Hmemo. }
      exists ((key, Store.Ref (length h)) :: copied), h'.
      cbv beta iota delta [mbind Store.St_bind Store.get_list Store.alloc].
      rewrite Hlh, Hc. split; [ done |]. split; [ by etrans |].
      intros k l2 [[= -> ->] | Hin]%elem_of_cons; [| by eauto ].
      eapply fresh_list_prefix; [ done |].
      split; [ by apply prefix_length |].
      exists xs. by rewrite lookup_app_r, Nat.sub_diag.
Qed.

Lemma store_deepcopy h D :
  Store.dict_ok h D = true ->
  exists options h',
    Store.deepcopy D h = (Store.Done options, h')
    /\ store_inv h options h'.
Proof.
  intros (m & Hm & Hok)%dict_ok_spec.
  destruct (store_copy_slots h (map_to_list m) ∅ h)
    as (copied & h' & Hc & Hp & Hfresh); [ done | | done |].
  { apply Forall_forall. intros [key v] Hin%elem_of_map_to_list. eauto. }
  exists (length h'), (h' ++ [Store.ODict (list_to_map copied)]).
  unfold Store.deepcopy.
  cbv beta iota delta [mbind Store.St_bind Store.get_dict Store.alloc].
  rewrite Hm, Hc. split; [ done |].
  assert (h' `prefix_of` h' ++ [Store.ODict (list_to_map copied)]) as Hext
    by by apply prefix_app_r.
  split; [ by etrans |]. split; [ by apply prefix_length |].
  eexists. split; [ by rewrite lookup_app_r, Nat.sub_diag |].
  intros key l Hl%elem_of_list_to_map_2.
  by eapply fresh_list_prefix, Hfresh.
Qed.

Section StoreClaim.

Variable int : string -> option Z.
Variable re_valid : string -> bool.

Lemma store_parse_options_prefix D es h :
  Store.dict_ok h D = true ->
  (Store.parse_options int re_valid D es h).1 <> Store.Wrong
  /\ h `prefix_of` (Store.parse_options int re_valid D es h).2.
Proof.
  intros Hok. destruct (store_deepcopy h D Hok) as (opts & h1 & Hd & Hinv).
  assert (exists m0, h !! D = Some (Store.ODict m0)) as HD.
  { apply dict_ok_spec in Hok as (m0 & ? & _). eauto. }
  unfold Store.parse_options. cbv beta delta [mbind Store.St_bind].
  rewrite Hd.
  by destruct (store_parse_loop int re_valid h D opts HD es [] h1 Hinv)
    as [Hr (Hp & _)].
Qed.

(** C8.  A call on a store where [DEFAULTS] is a dictionary of
    immutable values and lists leaves every object of that store as it
    was: the store after the call is the store before it followed by
    the objects the call made.  So [DEFAULTS] and its lists read the
    same after the call, whatever was appended to the lists of the
    copy, and the next call starts from the same table. *)
Theorem DEFAULTS_never_mutated D es h :
  Store.dict_ok h D = true ->
  (Store.parse_options int re_valid D es h).1 <> Store.Wrong
  /\ h `prefix_of` (Store.parse_options int re_valid D es h).2
  /\ Store.read_dict (Store.parse_options int re_valid D es h).2 D
     = Store.read_dict h D
  /\ Store.dict_ok (Store.parse_options int re_valid D es h).2 D = true.
Proof.
  intros Hok. destruct (store_parse_options_prefix D es h Hok) as [Hr Hp].
  split; [ done |]. split; [ done |].
  destruct (dict_ok_prefix _ _ D Hp Hok) as [Hok' Hread]. by split.
Qed.

End StoreClaim.

(** * Further properties *)

(** ** The kind of value each option holds *)

Lemma well_typed_DEFAULTS : well_typed DEFAULTS.
Proof.
  split; [ done |]. intros key v H. unfold DEFAULTS in H.
  apply elem_of_list_to_map_2 in H. unfold DEFAULTS_items in H.
  repeat (apply elem_of_cons in H as [[= -> ->] | H]); try reflexivity.
  by apply elem_of_nil in H.
Qed.

Lemma well_typed_insert o key v :
  well_typed o -> key ∈ dom DEFAULTS -> fits key v = true ->
  well_typed (<[key := v]> o).
Proof.
  intros [Hdom Hfits] Hin Hv. split.
  - rewrite dom_insert_L, Hdom. clear Hdom. revert Hin.
    generalize (dom DEFAULTS). intros D Hin. apply set_eq. intros x.
    rewrite elem_of_union, elem_of_singleton.
    split; [ by intros [-> | ?] | by right ].
  - by apply map_Forall_insert_2.
Qed.

Lemma well_typed_lookup o key :
  well_typed o -> key ∈ dom DEFAULTS ->
  exists v, o !! key = Some v /\ fits key v = true.
Proof.
  intros [Hdom Hfits] Hin. rewrite <- Hdom in Hin.
  apply elem_of_dom in Hin as [v Hv]. exists v. split; [ done |].
  by apply (Hfits key).
Qed.

Lemma is_strs_app l x :
  is_strs (VList l) = true -> is_strs (VList (l ++ [VStr x])) = true.
Proof.
  cbn [is_strs]. rewrite forallb_app. intros ->. reflexivity.
Qed.

Lemma is_insert_entries_app l x :
  is_insert_entries (VList l) = true ->
  is_insert_entries (VList (l ++ [VInsertEntry x])) = true.
Proof.
  cbn [is_insert_entries]. rewrite forallb_app. intros ->. reflexivity.
Qed.

Lemma is_strs_strs l : is_strs (strs l) = true.
Proof.
  unfold strs. cbn [is_strs]. apply forallb_forall.
  intros x Hx%list_elem_of_In%list_elem_of_fmap. by destruct Hx as (s & -> & _).
Qed.

Lemma typed_cases key :
  typed key = true ->
  key ∈ STR_OPTS \/ key ∈ BOOL_OPTS \/ key ∈ INT_OPTS \/ key ∈ LIST_OPTS.
Proof.
  unfold typed. rewrite !orb_true_iff, !mem_true. tauto.
Qed.

Lemma fits_bool key b : key ∈ BOOL_OPTS -> fits key (VBool b) = true.
Proof. intros H. by each_key H. Qed.

Lemma fits_int key n : key ∈ INT_OPTS -> fits key (VInt n) = true.
Proof. intros H. by each_key H. Qed.

Lemma fits_list key v : key ∈ LIST_OPTS -> fits key v = is_strs v.
Proof. intros H. by each_key H. Qed.

Lemma fits_str key s :
  key ∈ STR_OPTS -> mem key MULTI_OPTS = false -> fits key (VStr s) = true.
Proof. intros H. by each_key H. Qed.

Lemma unknown_key_not_fatal key :
  key ∉ dom DEFAULTS ->
  mem key INT_OPTS = false /\ String.eqb key "insert-entry" = false.
Proof.
  intros Hout. split.
  - destruct (mem key INT_OPTS) eqn:H; [| done ]. destruct Hout.
    apply mem_true, INT_OPTS_typed in H as [H _].
    by apply typed_keys_in_DEFAULTS in H as [H _].
  - destruct (String.eqb_spec key "insert-entry") as [-> |]; [| done ].
    destruct Hout. apply insert_entry_key.
Qed.

Section Classified.

Variable int : string -> option Z.
Variable re_valid : string -> bool.

(** What one directive does, read off the directive: rejected with a
    caught exception and nothing done; fatal with [ValueError] or the
    error of [re.compile]; or accepted, and then the options keep their
    kinds. *)
Lemma parse_entry_classified e o :
  type e = "fava-option" -> well_typed o ->
  match parse_entry int re_valid e o with
  | (Ok _, o') =>
      well_typed o' /\ rejected e = false /\ fatal int re_valid e = false
  | (Raise x, o') =>
      o' = o /\
      (caught x = true /\ rejected e = true /\ fatal int re_valid e = false
       \/ (x = ValueError \/ x = re_error) /\ rejected e = false
          /\ fatal int re_valid e = true)
  end.
Proof.
  intros Hty Hwt. unfold rejected, fatal.
  rewrite (proj2 (String.eqb_eq _ _) Hty). cbn [andb].
  destruct (values e) as [| k rest] eqn:Hv.
  { rewrite parse_entry_no_values by done. by auto. }
  destruct k as [key | b | n | d];
    try (rewrite (parse_entry_unknown _ _ _ _ rest) by done; by auto).
  destruct (bool_decide_reflect (key ∈ dom DEFAULTS)) as [Hin | Hout].
  2:{ rewrite (parse_entry_unknown _ _ _ (CStr key) rest);
        [| done | by intros ? [= <-] ].
      destruct (unknown_key_not_fatal _ Hout) as [-> ->].
      split; [ done |]. left. by destruct rest as [| [] ?]. }
  destruct (proj1 (DEFAULTS_keys_classified key) Hin)
    as [[[-> | ->] _] | Htyped].
  - rewrite (parse_entry_default_file _ _ _ rest) by done.
    split; [ by apply well_typed_insert |].
    split; [ done |]. by destruct rest as [| [] ?].
  - rewrite (parse_entry_insert_entry _ _ _ rest) by done.
    destruct rest as [| [s | | |] rest]; try by auto.
    cbn [String.eqb Ascii.eqb Bool.eqb mem andb orb].
    replace (mem "insert-entry" INT_OPTS) with false by reflexivity.
    cbn [andb orb]. destruct (re_valid s); [| by auto 10 ].
    destruct (well_typed_lookup _ _ Hwt insert_entry_key) as (v & Hv' & Hf).
    unfold append. rewrite Hv'.
    destruct v as [| | | | | l]; try discriminate Hf.
    split; [| done ]. apply well_typed_insert; [ done .. |].
    by apply is_insert_entries_app.
  - destruct (typed_keys_in_DEFAULTS _ Htyped) as (_ & Hdf & Hie).
    rewrite (proj2 (String.eqb_neq _ _) Hdf),
      (proj2 (String.eqb_neq _ _) Hie).
    rewrite (parse_entry_typed _ _ _ _ rest) by done.
    destruct rest as [| [v | | |] rest]; try by auto.
    rewrite bind_run. cbn [andb orb]. rewrite orb_false_r.
    destruct (typed_cases _ Htyped) as [Hk | [Hk | [Hk | Hk]]].
    + rewrite process_value_str by done.
      replace (mem key INT_OPTS) with false
        by (symmetry; by each_key Hk).
      destruct (mem key MULTI_OPTS) eqn:Hm.
      * destruct (well_typed_lookup _ _ Hwt Hin) as (v' & Hv' & Hf).
        unfold store_value, append. rewrite Hm, Hv'.
        pose proof Hm as ->%MULTI_OPTS_only.
        destruct v' as [| | | | | l]; try discriminate Hf.
        split; [| done ]. apply well_typed_insert; [ done .. |].
        by apply (is_strs_app l v).
      * rewrite store_value_set by done.
        split; [| done ]. apply well_typed_insert; [ done .. |].
        by apply fits_str.
    + rewrite process_value_bool by done.
      destruct (BOOL_OPTS_typed _ Hk) as [_ Hm].
      rewrite store_value_set by done.
      replace (mem key INT_OPTS) with false
        by (symmetry; by each_key Hk).
      split; [| done ]. apply well_typed_insert; [ done .. |].
      by apply fits_bool.
    + rewrite process_value_int by done.
      destruct (INT_OPTS_typed _ Hk) as [_ Hm].
      rewrite (proj2 (mem_true _ _) Hk). cbn [andb].
      destruct (int v) as [n |]; [| by auto 10 ].
      rewrite store_value_set by done.
      split; [| done ]. apply well_typed_insert; [ done .. |].
      by apply fits_int.
    + rewrite process_value_list by done.
      destruct (LIST_OPTS_typed _ Hk) as [_ Hm].
      rewrite store_value_set by done.
      replace (mem key INT_OPTS) with false
        by (symmetry; by each_key Hk).
      split; [| done ]. apply well_typed_insert; [ done .. |].
      rewrite fits_list by done. apply is_strs_strs.
Qed.

Lemma parse_loop_classified es o errs :
  well_typed o ->
  match parse_loop int re_valid es o errs with
  | Ok (o', errs') =>
      well_typed o'
      /\ errs' = errs ++ (option_error <$> List.filter rejected es)
      /\ existsb (fatal int re_valid) es = false
  | Raise x =>
      (x = ValueError \/ x = re_error)
      /\ existsb (fatal int re_valid) es = true
  end.
Proof.
  revert o errs. induction es as [| e es IH]; intros o errs Hwt.
  { cbn. by rewrite app_nil_r. }
  cbn [parse_loop List.filter existsb].
  destruct (String.eqb_spec (type e) "fava-option") as [Hty | Hty].
  - pose proof (parse_entry_classified e o Hty Hwt) as He.
    destruct (parse_entry _ _ e o) as [[[] | x] o1].
    + destruct He as (Hwt1 & -> & ->). apply (IH _ _ Hwt1).
    + destruct He as [-> [(-> & -> & ->) | (Hx & -> & ->)]].
      * specialize (IH o (errs ++ [option_error e]) Hwt).
        destruct (parse_loop _ _ es o _) as [[o' errs'] | y]; [| done ].
        destruct IH as (? & -> & ?). by rewrite <- app_assoc.
      * destruct Hx as [-> | ->]; cbn [caught orb]; auto.
  - assert (rejected e = false /\ fatal int re_valid e = false) as [-> ->].
    { unfold rejected, fatal.
      by rewrite (proj2 (String.eqb_neq _ _) Hty). }
    apply (IH _ _ Hwt).
Qed.

End Classified.

(** ** What the run returns *)

Section Returns.

Variable int : string -> option Z.
Variable re_valid : string -> bool.

Lemma parse_options_classified es :
  match parse_options int re_valid es with
  | Ok (o, errs) =>
      well_typed o
      /\ errs = option_error <$> List.filter rejected es
      /\ existsb (fatal int re_valid) es = false
  | Raise x =>
      (x = ValueError \/ x = re_error)
      /\ existsb (fatal int re_valid) es = true
  end.
Proof.
  unfold parse_options, deepcopy.
  apply (parse_loop_classified int re_valid es DEFAULTS []),
    well_typed_DEFAULTS.
Qed.

(** X1.  A directive that ends in the [except] clause (no value, an
    unknown key, or a second value that is missing or not a string for a
    key other than [default-file]) adds one [OptionError] for itself at
    its place among the errors and changes nothing else: the options
    and the other errors are those of the run without it. *)
Theorem rejected_directive_one_error pre e post o1 errs1 :
  parse_options int re_valid pre = Ok (o1, errs1) ->
  rejected e = true ->
  parse_options int re_valid (pre ++ e :: post) =
    match parse_options int re_valid (pre ++ post) with
    | Ok (o, errs) =>
        Ok (o, errs1 ++ option_error e :: drop (length errs1) errs)
    | Raise x => Raise x
    end.
Proof.
  intros Hpre Hrej.
  assert (type e = "fava-option") as Hty.
  { unfold rejected in Hrej. apply andb_true_iff in Hrej as [H _].
    by apply String.eqb_eq. }
  pose proof (parse_options_classified pre) as Hwt.
  rewrite Hpre in Hwt. destruct Hwt as (Hwt & _).
  rewrite (parse_options_step _ _ _ _ _ _ _ Hpre Hty).
  pose proof (parse_entry_classified int re_valid e o1 Hty Hwt) as He.
  destruct (parse_entry _ _ e o1) as [[[] | x] o2].
  { destruct He as (_ & He & _). congruence. }
  destruct He as [-> [(-> & _) | (_ & He & _)]]; [| congruence ].
  rewrite (parse_options_app _ _ _ _ _ _ Hpre).
  rewrite parse_loop_errors, (parse_loop_errors _ _ post o1 errs1).
  destruct (parse_loop _ _ post o1 []) as [[o errs2] | x']; [| done ].
  by rewrite drop_app_length, <- app_assoc.
Qed.

(** X2.  When the call returns, the error list is made of one
    [OptionError] for each rejected directive, in input order, and of
    nothing else. *)
Theorem errors_are_the_rejected_directives es o errs :
  parse_options int re_valid es = Ok (o, errs) ->
  errs = option_error <$> List.filter rejected es.
Proof.
  intros H. pose proof (parse_options_classified es) as Hc.
  rewrite H in Hc. by destruct Hc as (_ & ? & _).
Qed.

(** X3.  The call returns exactly when no directive is an integer
    option with a string [int] rejects or an [insert-entry] with a
    string [re.compile] rejects. *)
Theorem returns_iff_no_fatal_directive es :
  (exists o errs, parse_options int re_valid es = Ok (o, errs))
  <-> existsb (fatal int re_valid) es = false.
Proof.
  pose proof (parse_options_classified es) as Hc.
  destruct (parse_options int re_valid es) as [[o errs] | x].
  - destruct Hc as (_ & _ & ->). split; [ done | by eauto ].
  - destruct Hc as [_ ->]. split; [ by intros (? & ? & ?) | done ].
Qed.

(** X4.  The only exceptions that leave the call are the [ValueError]
    of [int] and the error of [re.compile]: no [KeyError], no
    [AttributeError] on [append], no unbound [value]. *)
Theorem only_int_and_re_errors_escape es x :
  parse_options int re_valid es = Raise x ->
  x = ValueError \/ x = re_error.
Proof.
  intros H. pose proof (parse_options_classified es) as Hc.
  rewrite H in Hc. by destruct Hc as [? _].
Qed.

(** X5.  Every option of the result holds a value of the kind of its
    key: a boolean for a key of [BOOL_OPTS], an integer for a key of
    [INT_OPTS], a list of strings for a key of [LIST_OPTS] or
    [MULTI_OPTS], a string or [None] for the other keys of [STR_OPTS]
    and for [default-file], a list of [InsertEntryOption] for
    [insert-entry]. *)
Theorem options_keep_their_kinds es o errs key :
  parse_options int re_valid es = Ok (o, errs) ->
  key ∈ dom DEFAULTS ->
  exists v, o !! key = Some v /\ fits key v = true.
Proof.
  intros H Hin. pose proof (parse_options_classified es) as Hc.
  rewrite H in Hc. destruct Hc as (Hwt & _).
  by apply well_typed_lookup.
Qed.

(** X6.  A directive for an integer option whose string [int] accepts
    sets the option to the integer [int] returns and adds no error. *)
Theorem int_option_accepted pre e post key v rest n o errs :
  parse_options int re_valid pre = Ok (o, errs) ->
  type e = "fava-option" ->
  values e = CStr key :: CStr v :: rest ->
  key ∈ INT_OPTS -> int v = Some n ->
  parse_options int re_valid (pre ++ e :: post) =
    parse_loop int re_valid post (<[key := VInt n]> o) errs.
Proof.
  intros Hpre Hty Hv Hk Hint.
  rewrite (parse_options_step _ _ _ _ _ _ _ Hpre Hty).
  destruct (INT_OPTS_typed _ Hk) as [Htyped Hm].
  rewrite (parse_entry_typed _ _ _ _ _ _ Htyped Hv), bind_run.
  by rewrite process_value_int, Hint, store_value_set.
Qed.


(** X8.  A directive for a string option that is not repeatable sets
    the option to the string as it is, the empty string included. *)
Theorem str_option_verbatim pre e post key v rest o errs :
  parse_options int re_valid pre = Ok (o, errs) ->
  type e = "fava-option" ->
  values e = CStr key :: CStr v :: rest ->
  key ∈ STR_OPTS -> key ∉ MULTI_OPTS ->
  parse_options int re_valid (pre ++ e :: post) =
    parse_loop int re_valid post (<[key := VStr v]> o) errs.
Proof.
  intros Hpre Hty Hv Hk Hm%mem_false.
  rewrite (parse_options_step _ _ _ _ _ _ _ Hpre Hty).
  rewrite (parse_entry_typed _ _ _ _ _ _ (STR_OPTS_typed _ Hk) Hv), bind_run.
  by rewrite process_value_str, store_value_set.
Qed.

Lemma parse_entry_insert_entries e o r o' l :
  type e = "fava-option" ->
  parse_entry int re_valid e o = (r, o') ->
  o !! "insert-entry" = Some (VList l) ->
  o' !! "insert-entry" =
    Some (VList (l ++ option_list (insert_entry_value re_valid e))).
Proof.
  intros Hty H Hl. unfold insert_entry_value.
  rewrite (proj2 (String.eqb_eq _ _) Hty).
  destruct (head_key_cases (values e) "insert-entry") as [Hhd | Hhd].
  - destruct (values e) as [| k rest] eqn:Hv; [ done |].
    injection Hhd as ->.
    rewrite (parse_entry_insert_entry _ _ _ rest) in H by done.
    destruct rest as [| [s | | |] rest];
      try (injection H as <- <-; by rewrite app_nil_r).
    cbn [String.eqb Ascii.eqb Bool.eqb andb].
    destruct (re_valid s);
      [| injection H as <- <-; by rewrite app_nil_r ].
    unfold append in H. rewrite Hl in H. injection H as <- <-.
    by rewrite lookup_insert_eq.
  - rewrite <- (parse_entry_frame _ _ _ _ _ _ _ H Hhd) in Hl.
    rewrite Hl. f_equal. f_equal.
    destruct (values e) as [| [k | | |] [| [s | | |] rest]];
      try by rewrite app_nil_r.
    destruct (String.eqb_spec k "insert-entry") as [-> |]; [ done |].
    by rewrite app_nil_r.
Qed.

(** X9.  When the call returns, [insert-entry] holds one record for
    each [insert-entry] directive with a pattern [re.compile] accepts,
    in input order, each with the date, the pattern, the file and the
    line of its directive. *)
Theorem insert_entries_accumulate es o errs :
  parse_options int re_valid es = Ok (o, errs) ->
  o !! "insert-entry" = Some (VList (omap (insert_entry_value re_valid) es)).
Proof.
  unfold parse_options, deepcopy.
  assert (DEFAULTS !! "insert-entry" = Some (VList [])) as Hl by done.
  revert Hl. generalize (@nil OptionError) at 1.
  change (omap (insert_entry_value re_valid) es)
    with ([] ++ omap (insert_entry_value re_valid) es).
  generalize (@nil pyval). generalize DEFAULTS.
  induction es as [| e es IH]; intros o0 l errs0 Hl.
  { intros [= <- <-]. by rewrite app_nil_r. }
  cbn [parse_loop omap list_omap].
  destruct (String.eqb_spec (type e) "fava-option") as [Hty | Hty].
  - destruct (parse_entry _ _ e o0) as [r o1] eqn:He. intros H.
    pose proof (parse_entry_insert_entries _ _ _ _ _ Hty He Hl) as Hl1.
    assert (parse_loop int re_valid es o1
              (if r is Ok _ then errs0 else errs0 ++ [option_error e])
            = Ok (o, errs)) as H'.
    { destruct r as [[] | x]; [ done |]. by destruct (caught x). }
    rewrite (IH _ _ _ Hl1 H'), <- app_assoc.
    by destruct (insert_entry_value _ e).
  - intros H. rewrite (IH _ _ _ Hl H).
    unfold insert_entry_value. by rewrite (proj2 (String.eqb_neq _ _) Hty).
Qed.

(** X10.  Entries of another type than ["fava-option"] are skipped
    wherever they stand: the call gives what it gives on the
    [fava-option] entries alone. *)
Theorem other_entries_are_skipped es :
  parse_options int re_valid es =
  parse_options int re_valid
    (List.filter (fun e => String.eqb (type e) "fava-option") es).
Proof.
  unfold parse_options. generalize (deepcopy DEFAULTS), (@nil OptionError).
  induction es as [| e es IH]; intros o errs; [ done |].
  cbn [List.filter]. destruct (String.eqb (type e) "fava-option") eqn:Hty.
  - cbn [parse_loop]. rewrite Hty.
    destruct (parse_entry _ _ e o) as [[[] | x] o1]; [ apply IH |].
    destruct (caught x); [ apply IH | done ].
  - cbn [parse_loop]. rewrite Hty. apply IH.
Qed.

(** X11.  An option that no directive names keeps its default. *)
Theorem unnamed_option_keeps_default es o errs key :
  parse_options int re_valid es = Ok (o, errs) ->
  Forall (fun e => type e = "fava-option" ->
                   head (values e) <> Some (CStr key)) es ->
  o !! key = DEFAULTS !! key.
Proof. intros H Hes. by apply (parse_loop_frame _ _ _ _ _ _ _ _ Hes H). Qed.

Lemma parse_entry_same e e' o :
  same_directive e e' ->
  parse_entry int re_valid e o = parse_entry int re_valid e' o.
Proof.
  intros (_ & Hm & Hd & Hv).
  assert (values e !! 0%nat = values e' !! 0%nat) as H0.
  { by rewrite <- (lookup_take_lt (values e) 2 0), Hv, lookup_take_lt by lia. }
  assert (values e !! 1%nat = values e' !! 1%nat) as H1.
  { by rewrite <- (lookup_take_lt (values e) 2 1), Hv, lookup_take_lt by lia. }
  unfold parse_entry, read_value, getitem. by rewrite H0, H1, Hm, Hd.
Qed.

Lemma parse_loop_same es es' o errs errs' :
  Forall2 same_directive es es' -> length errs = length errs' ->
  match parse_loop int re_valid es o errs,
        parse_loop int re_valid es' o errs' with
  | Ok (o1, errs1), Ok (o2, errs2) =>
      o1 = o2 /\ length errs1 = length errs2
  | Raise x, Raise y => x = y
  | _, _ => False
  end.
Proof.
  intros Hes. revert o errs errs'.
  induction Hes as [| e e' es es' He _ IH]; intros o errs errs' Hlen;
    [ done |].
  cbn [parse_loop]. rewrite (parse_entry_same _ _ _ He).
  destruct He as (<- & _). destruct (String.eqb _ _); [| by apply IH ].
  destruct (parse_entry _ _ e' o) as [[[] | x] o1]; [ by apply IH |].
  destruct (caught x); [| done ].
  apply IH. rewrite !length_app. cbn. lia.
Qed.

(** X12.  Of an entry the call reads the type, the date, the [meta] and
    the first two values only: two sequences whose entries agree on
    these give the same options, as many errors, and the same
    exception when they raise. *)
Theorem only_two_values_are_read es es' :
  Forall2 same_directive es es' ->
  match parse_options int re_valid es, parse_options int re_valid es' with
  | Ok (o, errs), Ok (o', errs') => o = o' /\ length errs = length errs'
  | Raise x, Raise y => x = y
  | _, _ => False
  end.
Proof. intros H. by apply parse_loop_same. Qed.

End Returns.

(** X13.  Every key is in at most one of the classes (the four type
    lists, the two keys served apart), the keys of [DEFAULTS] are the keys
    that are in one, and a repeatable key is a string option whose
    default is a list. *)
Theorem DEFAULTS_keys_have_one_class key :
  (class_count key <= 1)%nat
  /\ (key ∈ dom DEFAULTS <-> class_count key = 1%nat)
  /\ (mem key MULTI_OPTS = true <->
      mem key STR_OPTS = true /\ exists l, DEFAULTS !! key = Some (VList l)).
Proof.
  split; [| split ].
  - unfold class_count. cbn [List.filter].
    destruct (mem key STR_OPTS) eqn:H1.
    { apply mem_true in H1. each_key H1; vm_compute; lia. }
    destruct (mem key BOOL_OPTS) eqn:H2.
    { apply mem_true in H2. each_key H2; vm_compute; lia. }
    destruct (mem key INT_OPTS) eqn:H3.
    { apply mem_true in H3. each_key H3; vm_compute; lia. }
    destruct (mem key LIST_OPTS) eqn:H4.
    { apply mem_true in H4. each_key H4; vm_compute; lia. }
    destruct (mem key ["default-file"; "insert-entry"]); cbn; lia.
  - split.
    + intros [[Hs Hty] | Hty]%DEFAULTS_keys_classified.
      * unfold typed in Hty. rewrite !orb_false_iff in Hty.
        destruct Hty as [[[H1 H2] H3] H4].
        unfold class_count. cbn [List.filter]. rewrite H1, H2, H3, H4.
        by destruct Hs as [-> | ->].
      * destruct (typed_cases _ Hty) as [Hk | [Hk | [Hk | Hk]]];
          by each_key Hk.
    + unfold class_count. cbn [List.filter]. intros Hc.
      apply DEFAULTS_keys_classified.
      destruct (typed key) eqn:Hty; [ by right | left ].
      split; [| done ]. unfold typed in Hty. rewrite !orb_false_iff in Hty.
      destruct Hty as [[[H1 H2] H3] H4]. rewrite H1, H2, H3, H4 in Hc.
      destruct (mem key ["default-file"; "insert-entry"]) eqn:Hs;
        [| discriminate Hc ].
      apply mem_true in Hs. each_key Hs; auto.
  - rewrite MULTI_OPTS_only. split.
    + intros ->. split; [ done |]. by exists [].
    + intros [Hs%mem_true [l Hl]]. each_key Hs; try done.
      all: exfalso; revert Hl; by vm_compute.
Qed.

(** ** The string builtins *)










Section Builtins.

Variable int : string -> option Z.



End Builtins.

(** ** The options in the store *)

Section StoreResult.

Variable int : string -> option Z.
Variable re_valid : string -> bool.

Lemma store_parse_loop_options D es options errs h options' errs' :
  (Store.parse_loop int re_valid D es options errs h).1
  = Store.Done (options', errs') ->
  options' = options.
Proof.
  revert errs h. induction es as [| e es IH]; intros errs h.
  { by intros [= <- _]. }
  cbn [Store.parse_loop]. destruct (String.eqb _ _); [| apply IH ].
  destruct (Store.parse_entry _ _ _ _ e h) as [[[] | x |] h1];
    [ apply IH | | done ].
  destruct (caught x); [ apply IH | done ].
Qed.

(** X17.  On a store where [DEFAULTS] is a dictionary of immutable
    values and lists, the dictionary that the call returns is an object
    made by the call, and so is every list it holds: the result shares
    no dictionary and no list with [DEFAULTS] or with anything else
    that was in the store. *)
Theorem options_are_new_objects D es h options errs :
  Store.dict_ok h D = true ->
  (Store.parse_options int re_valid D es h).1 = Store.Done (options, errs) ->
  (length h <= options)%nat
  /\ exists m,
       (Store.parse_options int re_valid D es h).2 !! options
       = Some (Store.ODict m)
       /\ forall key l, m !! key = Some (Store.Ref l) ->
            (length h <= l)%nat
            /\ exists xs, (Store.parse_options int re_valid D es h).2 !! l
                          = Some (Store.OList xs).
Proof.
  intros Hok. destruct (store_deepcopy h D Hok) as (opts & h1 & Hd & Hinv).
  assert (exists m0, h !! D = Some (Store.ODict m0)) as HD.
  { apply dict_ok_spec in Hok as (m0 & ? & _). eauto. }
  unfold Store.parse_options. cbv beta delta [mbind Store.St_bind].
  rewrite Hd. intros Hr.
  pose proof (store_parse_loop_options _ _ _ _ _ _ _ Hr) as ->.
  destruct (store_parse_loop int re_valid h D opts HD es [] h1 Hinv)
    as [_ (_ & Hopts & m & Hm & Hrefs)].
  split; [ done |]. exists m. split; [ done |]. apply Hrefs.
Qed.

End StoreResult.

(** ** The store and the values side by side *)

Section RTriples.

Context {S : Store.heap -> gmap string pyval -> Prop}.

Lemma rtriple_ret {A B} (P : Store.heap -> Prop) (a : A) (b : B)
    (Q : A -> B -> Store.heap -> Prop) :
  (forall h, P h -> Q a b h) -> rtriple S P (mret a) (mret b) Q.
Proof. intros HQ h o HS HP. split; [ done | by apply HQ ]. Qed.

Lemma rtriple_bind {A A' B B'} P (m : Store.St A) (n : M A') Q
    (f : A -> Store.St B) (g : A' -> M B') R :
  rtriple S P m n Q -> (forall a b, rtriple S (Q a b) (f a) (g b) R) ->
  rtriple S P (m ≫= f) (n ≫= g) R.
Proof.
  intros Hm Hf h o HS HP. specialize (Hm h o HS HP).
  cbv beta delta [mbind Store.St_bind M_bind].
  destruct (m h) as [[a | x |] h1], (n o) as [[b | y] o1]; try done.
  destruct Hm as [HS1 HQ]. apply (Hf a b h1 o1 HS1 HQ).
Qed.

Lemma rtriple_weaken {A B} (P P' : Store.heap -> Prop) (m : Store.St A)
    (n : M B) (Q Q' : A -> B -> Store.heap -> Prop) :
  rtriple S P' m n Q' -> (forall h, P h -> P' h) ->
  (forall a b h, Q' a b h -> Q a b h) -> rtriple S P m n Q.
Proof.
  intros Hm HP HQ h o HS Hh. specialize (Hm h o HS (HP h Hh)).
  destruct (m h) as [[a | x |] h1], (n o) as [[b | y] o1]; try done.
  destruct Hm as [HS1 Hq]. by split; [| apply HQ ].
Qed.

Lemma rtriple_pre {A B} (P P' : Store.heap -> Prop) (m : Store.St A)
    (n : M B) (Q : A -> B -> Store.heap -> Prop) :
  rtriple S P' m n Q -> (forall h, P h -> P' h) -> rtriple S P m n Q.
Proof. intros Hm HP. by apply (rtriple_weaken P P' m n Q Q). Qed.

(** A fact of the precondition that does not depend on the store. *)
Lemma rtriple_fact {A B} (F : Prop) P (m : Store.St A) (n : M B) Q :
  (F -> rtriple S P m n Q) -> rtriple S (fun h => F /\ P h) m n Q.
Proof. intros H h o HS [HF HP]. by apply H. Qed.

(** Two statements that leave their states alone and end the same
    way. *)
Lemma rtriple_pure {A} P (m : Store.St A) (n : M A) :
  (forall h o,
     (m h).2 = h /\ (n o).2 = o
     /\ match (m h).1, (n o).1 with
        | Store.Done a, Ok b => a = b
        | Store.Throw x, Raise y => x = y
        | _, _ => False
        end) ->
  rtriple S P m n (fun a b h => a = b /\ P h).
Proof.
  intros H h o HS HP. destruct (H h o) as (H1 & H2 & Hr).
  destruct (m h) as [[a | x |] h1], (n o) as [[b | y] o1];
    cbn in *; by subst.
Qed.

End RTriples.

Lemma omap_read_val_ext h h' (m : gmap string Store.hval) :
  (forall key l, m !! key = Some (Store.Ref l) -> h' !! l = h !! l) ->
  omap (Store.read_val h') m = omap (Store.read_val h) m.
Proof.
  intros H. apply map_eq. intros k. rewrite !lookup_omap.
  destruct (m !! k) as [[v | l] |] eqn:E; try done.
  cbn. by rewrite (H k l E).
Qed.

Lemma refs_inj slots k1 k2 l :
  NoDup (Store.refs slots) ->
  (k1, Store.Ref l) ∈ slots -> (k2, Store.Ref l) ∈ slots ->
  NoDup slots.*1 -> k1 = k2.
Proof.
  induction slots as [| [k v] slots IH]; [ by intros _ ?%elem_of_nil |].
  assert (forall k', (k', Store.Ref l) ∈ slots -> l ∈ Store.refs slots) as Hin.
  { intros k' Hk'. apply list_elem_of_omap. by exists (k', Store.Ref l). }
  intros Hnd H1%elem_of_cons H2%elem_of_cons Hkeys.
  apply NoDup_cons in Hkeys as [Hk Hkeys].
  assert (forall k', (k', Store.Ref l) ∈ slots -> v <> Store.Ref l) as Hv.
  { intros k' Hk' ->. cbn in Hnd. apply NoDup_cons in Hnd as [Hnd _].
    by apply Hnd, (Hin k'). }
  assert (NoDup (Store.refs slots)) as Hnd'.
  { destruct v; cbn in Hnd; [ done | by apply NoDup_cons in Hnd as [_ ?] ]. }
  destruct H1 as [[= <- <-] | H1].
  - destruct H2 as [[= ->] | H2]; [ done | by destruct (Hv k2 H2) ].
  - destruct H2 as [[= <- <-] | H2]; [ by destruct (Hv k1 H1) | by apply IH ].
Qed.

Lemma unshared_spec h d m :
  h !! d = Some (Store.ODict m) -> Store.unshared h d = true -> slots_ok m.
Proof.
  unfold Store.unshared. intros -> [Himm Hnd%bool_decide_eq_true]%andb_true_iff.
  split.
  - intros k1 k2 l H1%elem_of_map_to_list H2%elem_of_map_to_list.
    eapply refs_inj; [ done .. |]. apply NoDup_fst_map_to_list.
  - intros key xs Hk%elem_of_map_to_list%list_elem_of_In.
    rewrite forallb_forall in Himm. by apply Himm in Hk.
Qed.

Section Simulation.

Variable int : string -> option Z.
Variable re_valid : string -> bool.
Variable h0 : Store.heap.
Variables D options : Store.loc.
Hypothesis HD :
  exists m0, h0 !! D = Some (Store.ODict m0) /\ dom m0 = dom DEFAULTS.

Abbreviation rel := (sim h0 options).
Abbreviation anyh := (fun _ : Store.heap => True).

Lemma sim_getitem {A} (l : list A) i P :
  rtriple rel P (Store.getitem l i) (getitem l i)
    (fun a b h => a = b /\ P h).
Proof.
  apply rtriple_pure. intros h o. unfold Store.getitem, getitem.
  by destruct (l !! i).
Qed.

Lemma sim_assert_str v P :
  rtriple rel P (Store.assert_str v) (assert_str v)
    (fun a b h => a = b /\ P h).
Proof. apply rtriple_pure. intros h o. by destruct v. Qed.

Lemma sim_local v P :
  rtriple rel P (Store.local v) (local v) (fun a b h => a = b /\ P h).
Proof. apply rtriple_pure. intros h o. by destruct v. Qed.

Lemma sim_int_of s P :
  rtriple rel P (Store.int_of int s) (int_of int s)
    (fun a b h => a = b /\ P h).
Proof.
  apply rtriple_pure. intros h o. unfold Store.int_of, int_of.
  by destruct (int s).
Qed.

Lemma sim_re_compile v P :
  rtriple rel P (Store.re_compile re_valid v) (re_compile re_valid v)
    (fun a b h => a = b /\ P h).
Proof.
  apply rtriple_pure. intros h o. destruct v as [s | | |]; try done.
  cbn. by destruct (re_valid s).
Qed.

Lemma sim_assert_key k :
  rtriple rel anyh (Store.assert_key D k) (assert_key k)
    (fun a b _ => a = b).
Proof.
  intros h o Hrel _. destruct HD as (m0 & Hm0 & Hdom).
  pose proof Hrel as ((Hpre & _) & _).
  pose proof (prefix_lookup_Some _ _ _ _ Hm0 Hpre) as Hm.
  destruct k as [key | | |]; try done.
  cbv beta iota delta
    [Store.assert_key assert_key mbind Store.St_bind M_bind Store.get_dict].
  rewrite Hm, Hdom. unfold Store.assert, assert.
  by destruct (bool_decide_reflect (key ∈ dom DEFAULTS)).
Qed.

Lemma sim_setitem_imm key v :
  (forall xs, v <> VList xs) ->
  rtriple rel anyh (Store.setitem options key (Store.Imm v))
    (setitem key v) (fun _ _ _ => True).
Proof.
  intros Hv h o (Hinv & m & Hm & Ho & Hinj & Himm) _.
  pose proof (store_setitem h0 options key (Store.Imm v) h Hinv I) as Hinv'.
  unfold Store.setitem, setitem in *. rewrite Hm in *.
  destruct Hinv' as [Hinv' _]. split; [| done ]. split; [ done |].
  assert (options < length h)%nat as Hlt by by eapply lookup_lt_Some.
  eexists. split; [ by apply list_lookup_insert_eq |]. split; [| split ].
  - rewrite (omap_insert_Some _ _ _ _ v) by done. f_equal. rewrite <- Ho.
    apply omap_read_val_ext. intros k l Hk.
    apply list_lookup_insert_ne. intros <-.
    destruct Hinv as (_ & _ & m' & Hm' & Hrefs).
    assert (m' = m) as -> by congruence.
    destruct (Hrefs _ _ Hk) as [_ [xs Hxs]]. congruence.
  - intros k1 k2 l. destruct (decide (k1 = key)) as [-> |];
      [ by rewrite lookup_insert_eq |].
    destruct (decide (k2 = key)) as [-> |];
      [ by rewrite (lookup_insert_eq _ key) |].
    rewrite !lookup_insert_ne by done. apply Hinj.
  - intros k xs. destruct (decide (k = key)) as [-> |].
    + rewrite lookup_insert_eq. intros [= ->]. by destruct (Hv xs).
    + rewrite lookup_insert_ne by done. apply Himm.
Qed.

Lemma sim_setitem_ref key l xs :
  rtriple rel (new_list h0 options l xs)
    (Store.setitem options key (Store.Ref l))
    (setitem key (VList xs)) (fun _ _ _ => True).
Proof.
  intros h o (Hinv & m & Hm & Ho & Hinj & Himm) (Hl & Hge & Hnew).
  assert (fresh_list h0 h l) as Hfresh by (split; eauto).
  pose proof (store_setitem h0 options key (Store.Ref l) h Hinv Hfresh)
    as Hinv'.
  unfold Store.setitem, setitem in *. rewrite Hm in *.
  destruct Hinv' as [Hinv' _]. split; [| done ]. split; [ done |].
  assert (options < length h)%nat as Hlt by by eapply lookup_lt_Some.
  assert (forall l', (exists ys, h !! l' = Some (Store.OList ys)) ->
            <[options := Store.ODict (<[key := Store.Ref l]> m)]> h !! l'
            = h !! l') as Hsame.
  { intros l' [ys Hys]. apply list_lookup_insert_ne. intros <-. congruence. }
  eexists. split; [ by apply list_lookup_insert_eq |]. split; [| split ].
  - rewrite (omap_insert_Some _ _ _ _ (VList xs)).
    + f_equal. rewrite <- Ho. apply omap_read_val_ext. intros k l' Hk.
      apply Hsame. destruct Hinv as (_ & _ & m' & Hm' & Hrefs).
      assert (m' = m) as -> by congruence.
      by destruct (Hrefs _ _ Hk) as [_ ?].
    + cbn [Store.read_val]. rewrite Hsame by eauto. by rewrite Hl.
  - intros k1 k2 l'. destruct (decide (k1 = key)) as [-> |];
      destruct (decide (k2 = key)) as [-> |]; try done.
    + rewrite lookup_insert_eq, lookup_insert_ne by done.
      intros [= <-] Hk. by destruct (Hnew m k2 eq_refl).
    + rewrite lookup_insert_ne, lookup_insert_eq by done.
      intros Hk [= <-]. by destruct (Hnew m k1 eq_refl).
    + rewrite !lookup_insert_ne by done. apply Hinj.
  - intros k ys. destruct (decide (k = key)) as [-> |].
    + by rewrite lookup_insert_eq.
    + rewrite lookup_insert_ne by done. apply Himm.
Qed.

Lemma sim_append key x :
  rtriple rel anyh (Store.append options key x) (append key x)
    (fun _ _ _ => True).
Proof.
  intros h o Hsim _. pose proof Hsim as (Hinv & m & Hm & Ho & Hinj & Himm).
  pose proof (store_append h0 options key x h Hinv I) as Hinv'.
  assert (o !! key = m !! key ≫= Store.read_val h) as Hkey
    by by rewrite <- Ho, lookup_omap.
  unfold Store.append, append in *. rewrite Hm in *. rewrite Hkey.
  destruct (m !! key) as [[v | l] |] eqn:Hk; cbn.
  - destruct v as [| | | | | xs]; try done. by destruct (Himm key xs).
  - destruct Hinv as (Hpre & Hopts & m' & Hm' & Hrefs).
    assert (m' = m) as -> by congruence.
    destruct (Hrefs _ _ Hk) as [Hge [xs Hxs]]. rewrite Hxs in *.
    destruct Hinv' as [Hinv' _]. split; [| done ]. split; [ done |].
    assert (l < length h)%nat as Hlt by by eapply lookup_lt_Some.
    exists m. split; [| split; [| done ] ].
    { rewrite list_lookup_insert_ne; [ done |]. intros <-. congruence. }
    apply map_eq. intros k. rewrite lookup_omap.
    destruct (decide (k = key)) as [-> |].
    + rewrite lookup_insert_eq, Hk. cbn.
      by rewrite list_lookup_insert_eq.
    + rewrite lookup_insert_ne by done. rewrite <- Ho, lookup_omap.
      destruct (m !! k) as [[v | l'] |] eqn:Hk'; try done. cbn.
      rewrite list_lookup_insert_ne; [ done |]. intros <-.
      by destruct n, (Hinj _ _ _ Hk Hk').
  - done.
Qed.

Lemma sim_alloc_list xs h o :
  sim h0 options h o ->
  sim h0 options (h ++ [Store.OList xs]) o
  /\ new_list h0 options (length h) xs (h ++ [Store.OList xs]).
Proof.
  intros (Hinv & m & Hm & Ho & Hok).
  pose proof (store_alloc_list h0 options xs h Hinv I) as [Hinv' Hfresh].
  assert (h `prefix_of` h ++ [Store.OList xs]) as Hext
    by by apply prefix_app_r.
  pose proof (prefix_lookup_Some _ _ _ _ Hm Hext) as Hm'.
  destruct Hinv as (_ & _ & m' & Hm2 & Hrefs).
  assert (m' = m) as -> by congruence.
  split.
  - split; [ done |]. exists m. split; [ done |]. split; [| done ].
    rewrite <- Ho. apply omap_read_val_ext. intros k l Hk.
    destruct (Hrefs _ _ Hk) as [_ [ys Hys]].
    by rewrite (prefix_lookup_Some _ _ _ _ Hys Hext).
  - split; [ by rewrite lookup_app_r, Nat.sub_diag |].
    split; [ by destruct Hfresh |].
    intros m1 k Hm1 Hk. assert (m1 = m) as -> by congruence.
    destruct (Hrefs _ _ Hk) as [_ [ys Hys%lookup_lt_Some]]. lia.
Qed.

Lemma sim_read_value e key :
  rtriple rel anyh (Store.read_value re_valid options e key)
    (read_value re_valid e key) (fun a b _ => a = b).
Proof.
  unfold Store.read_value, read_value.
  destruct (String.eqb key "default-file").
  { eapply rtriple_bind; [ by apply sim_setitem_imm |].
    intros [] []. by apply rtriple_ret. }
  destruct (String.eqb key "insert-entry").
  { eapply rtriple_bind; [ apply sim_getitem |].
    intros v v'. apply rtriple_fact. intros ->.
    eapply rtriple_bind; [ apply sim_re_compile |].
    intros re re'. apply rtriple_fact. intros ->.
    eapply rtriple_bind; [ apply sim_append |].
    intros [] []. by apply rtriple_ret. }
  eapply rtriple_bind; [ apply sim_getitem |].
  intros v v'. apply rtriple_fact. intros ->.
  eapply rtriple_bind; [ apply sim_assert_str |].
  intros s s'. apply rtriple_fact. intros ->.
  by apply rtriple_ret.
Qed.

Lemma sim_process_value key value :
  rtriple rel anyh (Store.process_value int key value)
    (process_value int key value) (pv_rel h0 options key).
Proof.
  unfold Store.process_value, process_value.
  destruct (mem key STR_OPTS) eqn:Hs.
  { eapply rtriple_bind; [ apply sim_local |].
    intros s s'. apply rtriple_fact. intros ->.
    by apply rtriple_ret. }
  destruct (mem key BOOL_OPTS).
  { eapply rtriple_bind; [ apply sim_local |].
    intros s s'. apply rtriple_fact. intros ->.
    by apply rtriple_ret. }
  destruct (mem key INT_OPTS).
  { eapply rtriple_bind; [ apply sim_local |].
    intros s s'. apply rtriple_fact. intros ->.
    eapply rtriple_bind; [ apply sim_int_of |].
    intros n n'. apply rtriple_fact. intros ->.
    by apply rtriple_ret. }
  destruct (mem key LIST_OPTS).
  { intros h o Hsim _. destruct value as [s |]; [| done ].
    cbv beta iota delta
      [mbind Store.St_bind M_bind Store.local local Store.alloc mret
       Store.St_ret M_ret].
    destruct (sim_alloc_list
                (VStr <$> PyStr.split_space (PyStr.strip s)) h o Hsim)
      as [Hsim' Hnew].
    split; [ done |]. split; [ done |].
    destruct (mem key MULTI_OPTS) eqn:Hm; [| done ].
    apply MULTI_OPTS_only in Hm as ->. discriminate Hs. }
  by apply rtriple_ret.
Qed.

Lemma sim_store_value key pv pv' :
  rtriple rel (pv_rel h0 options key pv pv')
    (Store.store_value options key pv) (store_value key pv')
    (fun _ _ _ => True).
Proof.
  unfold Store.store_value, store_value.
  destruct pv as [[v | l] |], pv' as [v' |];
    try (intros h o _ []; fail).
  - destruct (mem key MULTI_OPTS).
    + intros h o Hsim [-> _]. by apply sim_append.
    + intros h o Hsim [-> Hv]. by apply sim_setitem_imm.
  - destruct v' as [| b | n | s | ie | xs]; try (intros h o _ []; fail).
    destruct (mem key MULTI_OPTS) eqn:Hm.
    + intros h o _ [_ ?]. congruence.
    + intros h o Hsim [Hnew _]. by apply sim_setitem_ref.
  - by apply rtriple_ret.
Qed.

Lemma sim_parse_entry e :
  rtriple rel anyh (Store.parse_entry int re_valid D options e)
    (parse_entry int re_valid e) (fun _ _ _ => True).
Proof.
  unfold Store.parse_entry, parse_entry.
  eapply rtriple_bind; [ apply sim_getitem |].
  intros k k'. apply rtriple_fact. intros ->.
  eapply rtriple_bind; [ apply sim_assert_key |].
  intros key key'. apply (rtriple_pre _ (fun _ => key = key' /\ True));
    [| done ].
  apply rtriple_fact. intros ->.
  eapply rtriple_bind; [ apply sim_read_value |].
  intros value value'.
  apply (rtriple_pre _ (fun _ => value = value' /\ True)); [| done ].
  apply rtriple_fact. intros ->.
  eapply rtriple_bind; [ apply sim_process_value |].
  intros pv pv'. apply sim_store_value.
Qed.

Lemma sim_parse_loop es errs h o :
  sim h0 options h o ->
  match Store.parse_loop int re_valid D es options errs h,
        parse_loop int re_valid es o errs with
  | (Store.Done (options', errs1), h'), Ok (o', errs2) =>
      options' = options /\ sim h0 options h' o' /\ errs1 = errs2
  | (Store.Throw x, _), Raise y => x = y
  | _, _ => False
  end.
Proof.
  revert errs h o. induction es as [| e es IH]; intros errs h o Hsim;
    [ done |].
  cbn [Store.parse_loop parse_loop].
  destruct (String.eqb _ _); [| by apply IH ].
  pose proof (sim_parse_entry e h o Hsim I) as He.
  destruct (Store.parse_entry int re_valid D options e h)
    as [[[] | x |] h1];
    destruct (parse_entry int re_valid e o) as [[[] | y] o1]; try done.
  - apply IH, He.
  - destruct He as [-> Hsim1]. destruct (caught y); [ by apply IH | done ].
Qed.

End Simulation.

Lemma omap_list_to_map_related {A B C} (f : A -> option C) (g : B -> option C)
    (l1 : list (string * B)) (l2 : list (string * A)) :
  Forall2 (fun kv kv' => kv'.1 = kv.1 /\ f kv'.2 = g kv.2) l1 l2 ->
  omap f (list_to_map l2 : gmap string A)
  = omap g (list_to_map l1 : gmap string B).
Proof.
  induction 1 as [| [k b] [k' a] l1 l2 [Hk Hv] _ IH]; [ done |].
  cbn in Hk, Hv. subst k'. cbn [list_to_map foldr uncurry fst snd].
  change (foldr _ ∅ l1) with (list_to_map l1 : gmap string B).
  change (foldr _ ∅ l2) with (list_to_map l2 : gmap string A).
  by rewrite !omap_insert, Hv, IH.
Qed.

Lemma dom_omap_read h (m : gmap string Store.hval) :
  (forall key v, m !! key = Some v -> is_Some (Store.read_val h v)) ->
  dom (omap (Store.read_val h) m) = dom m.
Proof.
  intros H. apply set_eq. intros k. rewrite !elem_of_dom, lookup_omap.
  destruct (m !! k) as [v |] eqn:Hk; cbn.
  - split; [ by eauto |]. intros _. by apply (H k).
  - split; by intros [].
Qed.

Lemma sim_copy_slots h0 slots memo h :
  h0 `prefix_of` h ->
  Forall (fun kv => is_Some (Store.read_val h0 kv.2)) slots ->
  NoDup (Store.refs slots) ->
  (forall l, l ∈ Store.refs slots -> memo !! l = None) ->
  exists copied h',
    Store.copy_slots slots memo h = (Store.Done copied, h')
    /\ h `prefix_of` h'
    /\ Forall2 (fun kv kv' =>
                  kv'.1 = kv.1
                  /\ Store.read_val h' kv'.2 = Store.read_val h0 kv.2
                  /\ is_Some (Store.read_val h0 kv.2)
                  /\ forall v, kv'.2 = Store.Imm v -> kv.2 = Store.Imm v)
         slots copied
    /\ Forall (fun kv' => forall l', kv'.2 = Store.Ref l' ->
                 fresh_list h0 h' l' /\ (length h <= l')%nat) copied
    /\ NoDup (Store.refs copied).
Proof.
  intros Hp Hslots. revert memo h Hp.
  induction Hslots as [| [key v] slots Hv _ IH]; intros memo h Hp Hnd Hmemo.
  { exists [], h. repeat (split; [ done || constructor |]). constructor. }
  cbn [Store.copy_slots]. destruct v as [x | l].
  - destruct (IH memo h Hp Hnd Hmemo)
      as (copied & h' & Hc & Hp' & Hrel & Hfresh & Hnd').
    exists ((key, Store.Imm x) :: copied), h'.
    cbv beta delta [mbind Store.St_bind]. rewrite Hc.
    split; [ done |]. split; [ done |]. split; [| split ].
    + constructor; [| done ]. cbn. by eauto.
    + constructor; [ done | done ].
    + done.
  - cbn [Store.refs omap list_omap snd] in Hnd, Hmemo.
    apply NoDup_cons in Hnd as [Hl Hnd].
    rewrite (Hmemo l) by apply list_elem_of_here.
    cbn [Store.read_val snd] in Hv.
    destruct (h0 !! l) as [[xs | m] |] eqn:Hl0; try by destruct Hv.
    pose proof (prefix_lookup_Some _ _ _ _ Hl0 Hp) as Hlh.
    assert (h `prefix_of` h ++ [Store.OList xs]) as Hext
      by by apply prefix_app_r.
    destruct (IH (<[l := length h]> memo) (h ++ [Store.OList xs]))
      as (copied & h' & Hc & Hp' & Hrel & Hfresh & Hnd'); [ by etrans | done | |].
    { intros l2 Hl2. rewrite lookup_insert_ne by (by intros <-).
      by apply Hmemo, list_elem_of_further. }
    exists ((key, Store.Ref (length h)) :: copied), h'.
    cbv beta iota delta [mbind Store.St_bind Store.get_list Store.alloc].
    rewrite Hlh, Hc. split; [ done |]. split; [ by etrans |].
    assert (h' !! length h = Some (Store.OList xs)) as Hnew.
    { eapply prefix_lookup_Some; [| done ].
      by rewrite lookup_app_r, Nat.sub_diag. }
    split; [| split ].
    + constructor; [| done ]. cbn. rewrite Hnew, Hl0. by eauto.
    + constructor.
      * cbn. intros l' [= <-]. split; [| done ].
        split; [ by apply prefix_length | by eauto ].
      * eapply Forall_impl; [ done |]. cbn. intros kv Hkv l' Hl'.
        destruct (Hkv l' Hl') as [? Hlen]. split; [ done |].
        rewrite length_app in Hlen. cbn in Hlen. lia.
    + cbn [Store.refs omap list_omap snd]. apply NoDup_cons. split; [| done ].
      intros ([k v] & Hin & Hkv)%list_elem_of_omap.
      cbn in Hkv. destruct v as [| l']; [ done |]. injection Hkv as ->.
      rewrite Forall_forall in Hfresh.
      destruct (Hfresh _ Hin _ eq_refl) as [_ Hlen].
      rewrite length_app in Hlen. cbn in Hlen. lia.
Qed.

Lemma sim_deepcopy h D m0 :
  h !! D = Some (Store.ODict m0) ->
  Store.dict_ok h D = true -> Store.unshared h D = true ->
  exists options h',
    Store.deepcopy D h = (Store.Done options, h')
    /\ sim h options h' (omap (Store.read_val h) m0).
Proof.
  intros Hm (m & Hm' & Hok)%dict_ok_spec Hun.
  assert (m = m0) as -> by congruence. clear Hm'.
  pose proof (unshared_spec _ _ _ Hm Hun) as [Hinj0 Himm0].
  destruct (sim_copy_slots h (map_to_list m0) ∅ h)
    as (copied & h1 & Hc & Hp & Hrel & Hfresh & Hnd); [ done | | | done |].
  { apply Forall_forall. intros [key v] Hin%elem_of_map_to_list. eauto. }
  { unfold Store.unshared in Hun. rewrite Hm in Hun.
    by apply andb_true_iff in Hun as [_ ?%bool_decide_eq_true]. }
  exists (length h1), (h1 ++ [Store.ODict (list_to_map copied)]).
  unfold Store.deepcopy.
  cbv beta iota delta [mbind Store.St_bind Store.get_dict Store.alloc].
  rewrite Hm, Hc. split; [ done |].
  assert (h1 `prefix_of` h1 ++ [Store.ODict (list_to_map copied)]) as Hext
    by by apply prefix_app_r.
  assert ((h1 ++ [Store.ODict (list_to_map copied)]) !! length h1
          = Some (Store.ODict (list_to_map copied))) as Hopts
    by by rewrite lookup_app_r, Nat.sub_diag.
  rewrite Forall_forall in Hfresh.
  assert (copied.*1 = (map_to_list m0).*1) as Hkeys.
  { clear -Hrel. induction Hrel as [| ? ? ? ? (Hk & _) _ IH]; [ done |].
    rewrite !fmap_cons. by rewrite Hk, IH. }
  assert (NoDup copied.*1) as Hndk
    by (rewrite Hkeys; apply NoDup_fst_map_to_list).
  split; [| exists (list_to_map copied); split; [ done |]; split ].
  - split; [ by etrans |]. split; [ by apply prefix_length |].
    eexists. split; [ done |].
    intros key l Hl%elem_of_list_to_map_2.
    eapply fresh_list_prefix; [ done |]. by apply (Hfresh _ Hl).
  - rewrite <- (list_to_map_to_list m0) at 1.
    apply omap_list_to_map_related.
    eapply Forall2_impl; [ done |]. cbn.
    intros kv kv' (Hk & Hv & Hsome & _). split; [ done |].
    rewrite <- Hv. apply read_val_prefix; [ done |]. by rewrite Hv.
  - split.
    + intros k1 k2 l H1%elem_of_list_to_map_2 H2%elem_of_list_to_map_2.
      by eapply refs_inj.
    + intros key xs Hk%elem_of_list_to_map_2.
      apply list_elem_of_lookup in Hk as [i Hi].
      destruct (Forall2_lookup_r _ _ _ _ _ Hrel Hi)
        as ([k v] & Hi' & Hk' & _ & _ & Himm).
      cbn in Hk', Himm. subst k. rewrite (Himm _ eq_refl) in Hi'.
      apply list_elem_of_lookup_2, elem_of_map_to_list in Hi'.
      by destruct (Himm0 key xs).
Qed.

Section Agreement.

Variable int : string -> option Z.
Variable re_valid : string -> bool.

Lemma store_parse_options_sim D es h :
  Store.dict_ok h D = true ->
  Store.unshared h D = true ->
  Store.read_dict h D = Some DEFAULTS ->
  match Store.parse_options int re_valid D es h,
        parse_options int re_valid es with
  | (Store.Done (options, errs), h'), Ok (o, errs') =>
      sim h options h' o /\ errs = errs'
  | (Store.Throw x, _), Raise y => x = y
  | _, _ => False
  end.
Proof.
  intros Hok Hun Hread. unfold Store.read_dict in Hread.
  destruct (h !! D) as [[xs | m0] |] eqn:Hm; try done.
  injection Hread as Hread.
  destruct (sim_deepcopy h D m0 Hm Hok Hun) as (opts & h1 & Hd & Hsim).
  rewrite Hread in Hsim.
  assert (exists m, h !! D = Some (Store.ODict m) /\ dom m = dom DEFAULTS)
    as HD.
  { exists m0. split; [ done |]. rewrite <- Hread. symmetry.
    apply dom_omap_read. apply dict_ok_spec in Hok as (m & Hm' & H).
    by assert (m = m0) as <- by congruence. }
  unfold Store.parse_options, parse_options, deepcopy.
  cbv beta delta [mbind Store.St_bind]. rewrite Hd.
  pose proof (sim_parse_loop int re_valid h D opts HD es [] h1 DEFAULTS Hsim)
    as Hloop.
  destruct (Store.parse_loop int re_valid D es opts [] h1)
    as [[[opts' errs1] | x |] h'];
    destruct (parse_loop int re_valid es DEFAULTS [])
      as [[o errs2] | y]; try done.
  by destruct Hloop as (-> & ? & ->).
Qed.

Lemma sim_read_dict h0 options h o :
  sim h0 options h o -> Store.read_dict h options = Some o.
Proof.
  intros (_ & m & Hm & Ho & _). unfold Store.read_dict. by rewrite Hm, Ho.
Qed.

(** X18.  The run on the store and the run on the values agree.  From
    a store where [DEFAULTS] reads as the table, with one list object
    for each list of the table, the call on the store returns a
    dictionary that reads as the options of the call on the values,
    with the same errors, or raises the same exception; it never goes
    wrong. *)
Theorem store_run_agrees D es h :
  Store.dict_ok h D = true ->
  Store.unshared h D = true ->
  Store.read_dict h D = Some DEFAULTS ->
  match Store.parse_options int re_valid D es h,
        parse_options int re_valid es with
  | (Store.Done (options, errs), h'), Ok (o, errs') =>
      Store.read_dict h' options = Some o /\ errs = errs'
  | (Store.Throw x, _), Raise y => x = y
  | _, _ => False
  end.
Proof.
  intros Hok Hun Hread.
  pose proof (store_parse_options_sim D es h Hok Hun Hread) as H.
  destruct (Store.parse_options int re_valid D es h)
    as [[[opts errs1] | x |] h'];
    destruct (parse_options int re_valid es) as [[o errs2] | y]; try done.
  destruct H as [Hsim ->]. split; [| done ]. by eapply sim_read_dict.
Qed.

(** X14.  A call leaves the store ready for the next one: after any
    call, a second call on the store it left returns what the call on
    the values returns for the second sequence alone, so nothing of the
    first call shows in the second. *)
Theorem next_run_starts_from_defaults D es1 es2 h :
  Store.dict_ok h D = true ->
  Store.unshared h D = true ->
  Store.read_dict h D = Some DEFAULTS ->
  match Store.parse_options int re_valid D es2
          (Store.parse_options int re_valid D es1 h).2,
        parse_options int re_valid es2 with
  | (Store.Done (options, errs), h'), Ok (o, errs') =>
      Store.read_dict h' options = Some o /\ errs = errs'
  | (Store.Throw x, _), Raise y => x = y
  | _, _ => False
  end.
Proof.
  intros Hok Hun Hread.
  destruct (store_parse_options_prefix int re_valid D es1 h Hok)
    as [_ Hp].
  set (h1 := (Store.parse_options int re_valid D es1 h).2) in *.
  destruct (dict_ok_prefix h h1 D Hp Hok) as [Hok1 Hread1].
  assert (Store.unshared h1 D = true) as Hun1.
  { apply dict_ok_spec in Hok as (m & Hm & _).
    unfold Store.unshared in *. rewrite Hm in Hun.
    by rewrite (prefix_lookup_Some _ _ _ _ Hm Hp). }
  rewrite Hread in Hread1.
  pose proof (store_parse_options_sim D es2 h1 Hok1 Hun1 Hread1) as H.
  destruct (Store.parse_options int re_valid D es2 h1)
    as [[[opts errs1] | x |] h'];
    destruct (parse_options int re_valid es2) as [[o errs2] | y]; try done.
  destruct H as [Hsim ->]. split; [| done ]. by eapply sim_read_dict.
Qed.

End Agreement.

(** * Sample runs *)

Example lower_TRUE : PyStr.lower "TRUE" = "true".
Proof. reflexivity. Qed.

Example strip_split : PyStr.split_space (PyStr.strip "  a  b c ") = ["a"; ""; "b"; "c"].
Proof. reflexivity. Qed.

Example split_empty : PyStr.split_space "" = [""].
Proof. reflexivity. Qed.

Example sample_int : Sample.int " -1_000 " = Some (-1000) /\ Sample.int "abc" = None
  /\ Sample.int "" = None /\ Sample.int "1__0" = None /\ Sample.int "007" = Some 7.
Proof. repeat split; reflexivity. Qed.

Example sample_re : Sample.re_valid "Expenses:Food" = true /\ Sample.re_valid "(" = false.
Proof. split; reflexivity. Qed.

Example run_two :
  Sample.parse_options
    [Run.opt 1 [CStr "currency-column"; CStr "80"];
     Run.opt 2 [CStr "collapse-pattern"; CStr "Assets"];
     Run.opt 3 [CStr "nope"; CStr "x"];
     Run.opt 4 [CStr "journal-show"; CStr "note  custom "];
     Run.opt 5 [CStr "collapse-pattern"; CStr "Income"]]
  = Ok (<["currency-column" := VInt 80]>
        (<["collapse-pattern" := strs ["Assets"; "Income"]]>
         (<["journal-show" := strs ["note"; ""; "custom"]]> DEFAULTS)),
        [ option_error (Run.opt 3 [CStr "nope"; CStr "x"]) ]).
Proof. Run.run. Qed.

Example run_bad_int :
  Sample.parse_options [Run.opt 1 [CStr "currency-column"; CStr "abc"]]
  = Raise ValueError.
Proof. Run.run. Qed.

(** The store after the module is loaded holds [DEFAULTS]: the dictionary
    reads as the table, and each list of the table is an object of its
    own. *)
Example module_heap_DEFAULTS :
  Store.dict_ok Store.module_heap Store.DEFAULTS_loc = true
  /\ Store.unshared Store.module_heap Store.DEFAULTS_loc = true
  /\ Store.read_dict Store.module_heap Store.DEFAULTS_loc = Some DEFAULTS.
Proof. repeat split; Run.run. Qed.

(** ** The stated properties on sample runs *)

Lemma int_option_not_numeric_raises_witness :
  Sample.parse_options
    [Run.opt 1 [CStr "currency-column"; CStr "80"];
     Run.opt 2 [CStr "upcoming-events"; CStr "abc"];
     Run.opt 3 [CStr "interval"; CStr "year"]]
  = Raise ValueError.
Proof.
  apply (int_option_not_numeric_raises Sample.int Sample.re_valid
           [Run.opt 1 [CStr "currency-column"; CStr "80"]]
           (Run.opt 2 [CStr "upcoming-events"; CStr "abc"])
           [Run.opt 3 [CStr "interval"; CStr "year"]]
           "upcoming-events" "abc" []
           (<["currency-column" := VInt 80]> DEFAULTS) []).
  - Run.run.
  - reflexivity.
  - reflexivity.
  - apply (bool_decide_unpack _). vm_compute. exact I.
  - reflexivity.
Defined.

Lemma insert_entry_invalid_regex_raises_witness :
  Sample.parse_options
    [Run.opt 1 [CStr "insert-entry"; CStr "Expenses:Food"];
     Run.opt 2 [CStr "insert-entry"; CStr "("];
     Run.opt 3 [CStr "interval"; CStr "year"]]
  = Raise re_error.
Proof.
  apply (insert_entry_invalid_regex_raises Sample.int Sample.re_valid
           [Run.opt 1 [CStr "insert-entry"; CStr "Expenses:Food"]]
           (Run.opt 2 [CStr "insert-entry"; CStr "("])
           [Run.opt 3 [CStr "interval"; CStr "year"]]
           "(" []
           (<["insert-entry" :=
                VList [VInsertEntry
                         {| ie_date := Run.day1;
                            ie_re := {| pattern := "Expenses:Food" |};
                            ie_filename := "main.bean";
                            ie_lineno := 1 |}]]> DEFAULTS) []).
  - Run.run.
  - reflexivity.
  - reflexivity.
  - reflexivity.
Defined.

Lemma fatal_directive_ends_the_run_witness :
  exists x,
    Sample.parse_options
      [Run.opt 1 [CStr "interval"; CStr "year"];
       Run.opt 2 [CStr "nope"];
       Run.opt 3 [CStr "sidebar-show-queries"; CStr "many"];
       Run.opt 4 [CStr "auto-reload"; CStr "true"]]
    = Raise x /\ caught x = false.
Proof.
  apply (fatal_directive_ends_the_run Sample.int Sample.re_valid).
  vm_compute. reflexivity.
Defined.

Lemma unknown_key_one_error_witness :
  Sample.parse_options
    [Run.opt 1 [CStr "missing-value"];
     Run.opt 2 [CStr "not-a-real-option"; CStr "x"];
     Run.opt 3 [CStr "interval"; CStr "year"];
     Run.opt 4 [CStr "interval"]]
  = match Sample.parse_options
            [Run.opt 1 [CStr "missing-value"];
             Run.opt 3 [CStr "interval"; CStr "year"];
             Run.opt 4 [CStr "interval"]] with
    | Ok (o, errs) =>
        Ok (o, ([option_error (Run.opt 1 [CStr "missing-value"])]
                ++ {| source := Run.loc "main.bean" 2;
                      message := "Failed to parse fava-option entry";
                      entry := Run.opt 2 [CStr "not-a-real-option"; CStr "x"] |}
                :: drop 1 errs)%list)
    | Raise x => Raise x
    end.
Proof.
  apply (unknown_key_one_error Sample.int Sample.re_valid
           [Run.opt 1 [CStr "missing-value"]]
           (Run.opt 2 [CStr "not-a-real-option"; CStr "x"])
           [Run.opt 3 [CStr "interval"; CStr "year"];
            Run.opt 4 [CStr "interval"]]
           (CStr "not-a-real-option") [CStr "x"] DEFAULTS
           [option_error (Run.opt 1 [CStr "missing-value"])]).
  - Run.run.
  - reflexivity.
  - reflexivity.
  - intros key [= <-]. apply (bool_decide_unpack _). vm_compute. exact I.
Defined.

Lemma bool_option_lenient_witness :
  Sample.parse_options
    [Run.opt 1 [CStr "auto-reload"; CStr "TrUe"];
     Run.opt 2 [CStr "show-closed-accounts"; CStr "yes"]]
  = Ok (<["show-closed-accounts" := VBool false]>
          (<["auto-reload" := VBool true]> DEFAULTS), []).
Proof.
  destruct (bool_option_lenient Sample.int Sample.re_valid
              [Run.opt 1 [CStr "auto-reload"; CStr "TrUe"]]
              (Run.opt 2 [CStr "show-closed-accounts"; CStr "yes"])
              [] "show-closed-accounts" "yes" []
              (<["auto-reload" := VBool true]> DEFAULTS) [])
    as [Hrun _].
  - Run.run.
  - reflexivity.
  - reflexivity.
  - apply (bool_decide_unpack _). vm_compute. exact I.
  - exact Hrun.
Defined.

Lemma directives_apply_in_order_witness :
  let o := <["currency-column" := VInt 90]>
             (<["collapse-pattern" := strs ["Assets"; "Income"]]> DEFAULTS) in
  o !! "currency-column" = Some (VInt 90)
  /\ exists l, DEFAULTS !! "collapse-pattern" = Some (VList l)
       /\ o !! "collapse-pattern" =
            Some (VList (l ++ [VStr "Assets"; VStr "Income"])).
Proof.
  intros o.
  destruct (directives_apply_in_order Sample.int Sample.re_valid
              [Run.opt 1 [CStr "currency-column"; CStr "80"];
               Run.opt 2 [CStr "collapse-pattern"; CStr "Assets"];
               Run.opt 3 [CStr "currency-column"; CStr "90"];
               Run.opt 4 [CStr "collapse-pattern"; CStr "Income"]]
              o [])
    as [Hlast Hmulti].
  - Run.run.
  - split.
    + apply (Hlast [Run.opt 1 [CStr "currency-column"; CStr "80"];
                    Run.opt 2 [CStr "collapse-pattern"; CStr "Assets"]]
                   (Run.opt 3 [CStr "currency-column"; CStr "90"])
                   [Run.opt 4 [CStr "collapse-pattern"; CStr "Income"]]
                   "currency-column" "90" []); try reflexivity.
      * apply (bool_decide_unpack _). vm_compute. exact I.
      * repeat constructor. discriminate.
    + apply (Hmulti "collapse-pattern").
      apply (bool_decide_unpack _). vm_compute. exact I.
Defined.

Lemma no_directive_gives_defaults_witness :
  Sample.parse_options
    [ {| meta := Run.loc "main.bean" 1; date := Run.day1; type := "budget";
         values := [CStr "Expenses:Food"; CStr "monthly"] |} ]
  = Ok (DEFAULTS, []).
Proof.
  apply (no_directive_gives_defaults Sample.int Sample.re_valid).
  repeat constructor. discriminate.
Defined.

Lemma key_set_preserved_witness :
  dom (<["currency-column" := VInt 80]>
         (<["collapse-pattern" := strs ["Assets"]]> DEFAULTS))
  = dom DEFAULTS.
Proof.
  apply (key_set_preserved Sample.int Sample.re_valid
           [Run.opt 1 [CStr "currency-column"; CStr "80"];
            Run.opt 2 [CStr "collapse-pattern"; CStr "Assets"];
            Run.opt 3 [CStr "nope"; CStr "x"]]
           _ [option_error (Run.opt 3 [CStr "nope"; CStr "x"])]).
  Run.run.
Defined.

Lemma default_file_needs_no_value_witness :
  Sample.parse_options
    [Run.opt 1 [CStr "default-file"];
     Run.opt 2 [CStr "default-file"; CBool true]]
  = Ok (<["default-file" := VStr "main.bean"]> DEFAULTS, []).
Proof.
  etransitivity.
  { apply (default_file_needs_no_value Sample.int Sample.re_valid
             [Run.opt 1 [CStr "default-file"]]
             (Run.opt 2 [CStr "default-file"; CBool true]) [] [CBool true]
             (<["default-file" := VStr "main.bean"]> DEFAULTS) []);
      [ Run.run | reflexivity | reflexivity ]. }
  Run.run.
Defined.

Lemma DEFAULTS_never_mutated_witness :
  let h' :=
    (Store.parse_options Sample.int Sample.re_valid Store.DEFAULTS_loc
       [Run.opt 1 [CStr "insert-entry"; CStr "Expenses:Food"];
        Run.opt 2 [CStr "collapse-pattern"; CStr "Assets"];
        Run.opt 3 [CStr "journal-show"; CStr "note"];
        Run.opt 4 [CStr "nope"]]
       Store.module_heap).2 in
  Store.read_dict h' Store.DEFAULTS_loc = Some DEFAULTS.
Proof.
  intros h'.
  destruct (DEFAULTS_never_mutated Sample.int Sample.re_valid
              Store.DEFAULTS_loc
              [Run.opt 1 [CStr "insert-entry"; CStr "Expenses:Food"];
               Run.opt 2 [CStr "collapse-pattern"; CStr "Assets"];
               Run.opt 3 [CStr "journal-show"; CStr "note"];
               Run.opt 4 [CStr "nope"]]
              Store.module_heap)
    as (_ & _ & Hread & _).
  - vm_compute. reflexivity.
  - etransitivity; [ exact Hread | Run.run ].
Defined.

(** ** The further properties on sample runs *)

Lemma rejected_directive_one_error_witness :
  Sample.parse_options
    [Run.opt 1 [CStr "interval"; CStr "year"];
     Run.opt 2 [CStr "currency-column"];
     Run.opt 3 [CStr "insert-entry"; CBool true]]
  = match Sample.parse_options
            [Run.opt 1 [CStr "interval"; CStr "year"];
             Run.opt 3 [CStr "insert-entry"; CBool true]] with
    | Ok (o, errs) =>
        Ok (o, [] ++ option_error (Run.opt 2 [CStr "currency-column"])
                  :: drop 0 errs)
    | Raise x => Raise x
    end.
Proof.
  apply (rejected_directive_one_error Sample.int Sample.re_valid
           [Run.opt 1 [CStr "interval"; CStr "year"]]
           (Run.opt 2 [CStr "currency-column"])
           [Run.opt 3 [CStr "insert-entry"; CBool true]]
           (<["interval" := VStr "year"]> DEFAULTS) []).
  - Run.run.
  - vm_compute. reflexivity.
Defined.

Lemma errors_are_the_rejected_directives_witness :
  [option_error (Run.opt 2 []);
   option_error (Run.opt 4 [CStr "locale"; CNumber 3])]
  = option_error <$>
      List.filter rejected
        [Run.opt 1 [CStr "locale"; CStr "en"];
         Run.opt 2 [];
         Run.opt 3 [CStr "default-file"];
         Run.opt 4 [CStr "locale"; CNumber 3]].
Proof.
  apply (errors_are_the_rejected_directives Sample.int Sample.re_valid
           [Run.opt 1 [CStr "locale"; CStr "en"];
            Run.opt 2 [];
            Run.opt 3 [CStr "default-file"];
            Run.opt 4 [CStr "locale"; CNumber 3]]
           (<["default-file" := VStr "main.bean"]>
              (<["locale" := VStr "en"]> DEFAULTS))).
  Run.run.
Defined.

Lemma only_int_and_re_errors_escape_witness :
  re_error = ValueError \/ re_error = re_error.
Proof.
  apply (only_int_and_re_errors_escape Sample.int Sample.re_valid
           [Run.opt 1 [CStr "insert-entry"; CStr "[a-"]]).
  Run.run.
Defined.

Lemma options_keep_their_kinds_witness :
  exists v,
    <["journal-show" := strs ["note"; "custom"]]> DEFAULTS !! "journal-show"
    = Some v
    /\ fits "journal-show" v = true.
Proof.
  apply (options_keep_their_kinds Sample.int Sample.re_valid
           [Run.opt 1 [CStr "journal-show"; CStr "note custom"]] _ []).
  - Run.run.
  - apply (bool_decide_unpack _). vm_compute. exact I.
Defined.

Lemma int_option_accepted_witness :
  Sample.parse_options [Run.opt 1 [CStr "upcoming-events"; CStr " 14 "]]
  = Ok (<["upcoming-events" := VInt 14]> DEFAULTS, []).
Proof.
  apply (int_option_accepted Sample.int Sample.re_valid []
           (Run.opt 1 [CStr "upcoming-events"; CStr " 14 "]) []
           "upcoming-events" " 14 " [] 14 DEFAULTS []).
  - reflexivity.
  - reflexivity.
  - reflexivity.
  - apply (bool_decide_unpack _). vm_compute. exact I.
  - reflexivity.
Defined.


Lemma str_option_verbatim_witness :
  Sample.parse_options [Run.opt 1 [CStr "language"; CStr ""]]
  = Ok (<["language" := VStr ""]> DEFAULTS, []).
Proof.
  apply (str_option_verbatim Sample.int Sample.re_valid []
           (Run.opt 1 [CStr "language"; CStr ""]) []
           "language" "" [] DEFAULTS []).
  - reflexivity.
  - reflexivity.
  - reflexivity.
  - apply (bool_decide_unpack _). vm_compute. exact I.
  - apply (bool_decide_unpack _). vm_compute. exact I.
Defined.

Lemma insert_entries_accumulate_witness :
  let o :=
    <["insert-entry" :=
        VList [VInsertEntry {| ie_date := Run.day1;
                               ie_re := {| pattern := "Expenses:Food" |};
                               ie_filename := "main.bean"; ie_lineno := 1 |};
               VInsertEntry {| ie_date := Run.day1;
                               ie_re := {| pattern := "Income" |};
                               ie_filename := "main.bean"; ie_lineno := 3 |}]]>
      DEFAULTS in
  o !! "insert-entry" =
    Some (VList (omap (insert_entry_value Sample.re_valid)
                   [Run.opt 1 [CStr "insert-entry"; CStr "Expenses:Food"];
                    Run.opt 2 [CStr "insert-entry"];
                    Run.opt 3 [CStr "insert-entry"; CStr "Income"]])).
Proof.
  intros o.
  apply (insert_entries_accumulate Sample.int Sample.re_valid _ o
           [option_error (Run.opt 2 [CStr "insert-entry"])]).
  Run.run.
Defined.

Lemma unnamed_option_keeps_default_witness :
  <["interval" := VStr "year"]> DEFAULTS !! "conversion-currencies"
  = DEFAULTS !! "conversion-currencies".
Proof.
  apply (unnamed_option_keeps_default Sample.int Sample.re_valid
           [Run.opt 1 [CStr "interval"; CStr "year"]] _ []).
  - Run.run.
  - repeat constructor. discriminate.
Defined.

Lemma only_two_values_are_read_witness :
  match Sample.parse_options
          [Run.opt 1 [CStr "interval"; CStr "year"; CStr "more"; CBool true]],
        Sample.parse_options [Run.opt 1 [CStr "interval"; CStr "year"]] with
  | Ok (o, errs), Ok (o', errs') => o = o' /\ length errs = length errs'
  | Raise x, Raise y => x = y
  | _, _ => False
  end.
Proof.
  apply (only_two_values_are_read Sample.int Sample.re_valid
           [Run.opt 1 [CStr "interval"; CStr "year"; CStr "more"; CBool true]]
           [Run.opt 1 [CStr "interval"; CStr "year"]]).
  repeat constructor.
Defined.



Lemma options_are_new_objects_witness :
  let h' :=
    (Store.parse_options Sample.int Sample.re_valid Store.DEFAULTS_loc
       [Run.opt 1 [CStr "import-dirs"; CStr "a b"]] Store.module_heap).2 in
  (length Store.module_heap <= 15)%nat
  /\ exists m,
       h' !! 15%nat = Some (Store.ODict m)
       /\ forall key l, m !! key = Some (Store.Ref l) ->
            (length Store.module_heap <= l)%nat
            /\ exists xs, h' !! l = Some (Store.OList xs).
Proof.
  intros h'.
  apply (options_are_new_objects Sample.int Sample.re_valid
           Store.DEFAULTS_loc [Run.opt 1 [CStr "import-dirs"; CStr "a b"]]
           Store.module_heap 15%nat []).
  - vm_compute. reflexivity.
  - vm_compute. reflexivity.
Defined.

Lemma store_run_agrees_witness :
  match Store.parse_options Sample.int Sample.re_valid Store.DEFAULTS_loc
          [Run.opt 1 [CStr "insert-entry"; CStr "Expenses:Food"];
           Run.opt 2 [CStr "collapse-pattern"; CStr "Assets"];
           Run.opt 3 [CStr "journal-show"; CStr "note"];
           Run.opt 4 [CStr "nope"]]
          Store.module_heap,
        Sample.parse_options
          [Run.opt 1 [CStr "insert-entry"; CStr "Expenses:Food"];
           Run.opt 2 [CStr "collapse-pattern"; CStr "Assets"];
           Run.opt 3 [CStr "journal-show"; CStr "note"];
           Run.opt 4 [CStr "nope"]] with
  | (Store.Done (options, errs), h'), Ok (o, errs') =>
      Store.read_dict h' options = Some o /\ errs = errs'
  | (Store.Throw x, _), Raise y => x = y
  | _, _ => False
  end.
Proof.
  apply (store_run_agrees Sample.int Sample.re_valid Store.DEFAULTS_loc
           [Run.opt 1 [CStr "insert-entry"; CStr "Expenses:Food"];
            Run.opt 2 [CStr "collapse-pattern"; CStr "Assets"];
            Run.opt 3 [CStr "journal-show"; CStr "note"];
            Run.opt 4 [CStr "nope"]]
           Store.module_heap).
  - vm_compute. reflexivity.
  - vm_compute. reflexivity.
  - Run.run.
Defined.

Lemma next_run_starts_from_defaults_witness :
  match Store.parse_options Sample.int Sample.re_valid Store.DEFAULTS_loc
          [Run.opt 3 [CStr "collapse-pattern"; CStr "Income"]]
          (Store.parse_options Sample.int Sample.re_valid Store.DEFAULTS_loc
             [Run.opt 1 [CStr "collapse-pattern"; CStr "Assets"];
              Run.opt 2 [CStr "insert-entry"; CStr "Expenses"]]
             Store.module_heap).2,
        Sample.parse_options
          [Run.opt 3 [CStr "collapse-pattern"; CStr "Income"]] with
  | (Store.Done (options, errs), h'), Ok (o, errs') =>
      Store.read_dict h' options = Some o /\ errs = errs'
  | (Store.Throw x, _), Raise y => x = y
  | _, _ => False
  end.
Proof.
  apply (next_run_starts_from_defaults Sample.int Sample.re_valid
           Store.DEFAULTS_loc
           [Run.opt 1 [CStr "collapse-pattern"; CStr "Assets"];
            Run.opt 2 [CStr "insert-entry"; CStr "Expenses"]]
           [Run.opt 3 [CStr "collapse-pattern"; CStr "Income"]]
           Store.module_heap).
  - vm_compute. reflexivity.
  - vm_compute. reflexivity.
  - Run.run.
Defined.
